(** * Reqline parser and request service: a shallow embedding

    The development follows [src/parser/reqlineParser.js] and
    [src/services/requestService.js].  JavaScript strings are sequences of
    UTF-16 code units; a thrown [Error] is a value of the type [Error] below,
    and a function that may throw returns a [Result]. *)

From Stdlib Require Import Ascii String.
From Stdlib Require Import List NArith ZArith QArith Qabs Qreduction Bool Lia.
From Stdlib Require Import Permutation.
Import ListNotations.

(** ** JavaScript strings *)

Definition codeunit := N.
Definition jsstring := list codeunit.

(** The code units of an ASCII literal. *)
Definition js (s : string) : jsstring :=
  List.map N_of_ascii (list_ascii_of_string s).

Definition SPACE : codeunit := 32%N.
Definition PIPE : codeunit := 124%N.
Definition QUOTE : codeunit := 34%N.

Fixpoint str_eqb (a b : jsstring) : bool :=
  match a, b with
  | [], [] => true
  | x :: a', y :: b' => N.eqb x y && str_eqb a' b'
  | _, _ => false
  end.

(** [Array.prototype.includes] on an array of strings. *)
Definition includes_str (l : list jsstring) (s : jsstring) : bool :=
  existsb (str_eqb s) l.

(** [String.prototype.startsWith]. *)
Fixpoint startsWith (s prefix : jsstring) {struct prefix} : bool :=
  match prefix, s with
  | [], _ => true
  | p :: prefix', c :: s' => N.eqb c p && startsWith s' prefix'
  | _ :: _, [] => false
  end.

(** [String.prototype.includes]: the needle starts at some position. *)
Fixpoint includes (s needle : jsstring) : bool :=
  startsWith s needle ||
  match s with
  | [] => false
  | _ :: s' => includes s' needle
  end.

(** White space and line terminators, the code units removed by
    [String.prototype.trim]. *)
Definition is_ws (c : codeunit) : bool :=
  ((9 <=? c) && (c <=? 13) || (c =? 32) || (c =? 160) || (c =? 5760)
   || (8192 <=? c) && (c <=? 8202) || (c =? 8232) || (c =? 8233)
   || (c =? 8239) || (c =? 8287) || (c =? 12288) || (c =? 65279))%N.

Fixpoint trimStart (s : jsstring) : jsstring :=
  match s with
  | [] => []
  | c :: s' => if is_ws c then trimStart s' else s
  end.

Definition trimEnd (s : jsstring) : jsstring := rev (trimStart (rev s)).

Definition trim (s : jsstring) : jsstring := trimEnd (trimStart s).

(** [s.substring(0, n)] and [s.substring(n)] for [n] within the string. *)
Definition substring_to (n : nat) (s : jsstring) : jsstring := firstn n s.
Definition substring_from (n : nat) (s : jsstring) : jsstring := skipn n s.

(** [s.split(' ')]: the pieces between the spaces, never an empty array. *)
Fixpoint split_space (s : jsstring) : list jsstring :=
  match s with
  | [] => [[]]
  | c :: s' =>
      if N.eqb c SPACE then [] :: split_space s'
      else match split_space s' with
           | [] => [[c]]
           | piece :: pieces => (c :: piece) :: pieces
           end
  end.

(** Case mapping.  ECMAScript takes [toLowerCase] and [toUpperCase] from the
    Unicode tables.  The tables below list every code unit whose image
    contains a code unit below 128 and leave the other units as they are:
    the sources compare the result with ASCII literals only, and a unit
    outside these tables has no ASCII unit in its image. *)
Definition lower_unit (c : codeunit) : jsstring :=
  if ((65 <=? c) && (c <=? 90))%N then [(c + 32)%N]
  else if (c =? 304)%N then [105; 775]%N
  else if (c =? 8490)%N then [107%N]
  else [c].

Definition toLowerCase (s : jsstring) : jsstring := flat_map lower_unit s.

Definition upper_unit (c : codeunit) : jsstring :=
  if ((97 <=? c) && (c <=? 122))%N then [(c - 32)%N]
  else if (c =? 223)%N then [83; 83]%N
  else if (c =? 305)%N then [73%N]
  else if (c =? 329)%N then [700; 78]%N
  else if (c =? 383)%N then [83%N]
  else if (c =? 496)%N then [74; 780]%N
  else if (c =? 7830)%N then [72; 817]%N
  else if (c =? 7831)%N then [84; 776]%N
  else if (c =? 7832)%N then [87; 778]%N
  else if (c =? 7833)%N then [89; 778]%N
  else if (c =? 7834)%N then [65; 702]%N
  else if (c =? 64256)%N then [70; 70]%N
  else if (c =? 64257)%N then [70; 73]%N
  else if (c =? 64258)%N then [70; 76]%N
  else if (c =? 64259)%N then [70; 70; 73]%N
  else if (c =? 64260)%N then [70; 70; 76]%N
  else if ((c =? 64261) || (c =? 64262))%N then [83; 84]%N
  else [c].

Definition toUpperCase (s : jsstring) : jsstring := flat_map upper_unit s.

(** ** Errors and results *)

(** One constructor for each [throw new Error(...)] of the parser, and one
    for the [SyntaxError] that [JSON.parse] throws, with its message. *)
Inductive Error : Type :=
| EmptyReqline
| PipeSpacing
| MissingSections
| EmptySegment
| MissingSpace
| KeywordCase
| InvalidKeyword (keyword : jsstring)
| MultipleSpaces
| MethodCase
| InvalidMethod
| UrlEmpty
| UrlScheme
| DuplicateKeyword (keyword : jsstring)
| HttpFirst
| UrlSecond
| MissingRequired (keyword : jsstring)
| InvalidJson (sectionName : jsstring)
| NativeSyntaxError (msg : jsstring).

(** [error.message]. *)
Definition message (e : Error) : jsstring :=
  match e with
  | EmptyReqline => js "Reqline statement cannot be empty"
  | PipeSpacing => js "Invalid spacing around pipe delimiter"
  | MissingSections => js "Missing required HTTP and URL sections"
  | EmptySegment => js "Empty segment found"
  | MissingSpace => js "Missing space after keyword"
  | KeywordCase => js "Keywords must be uppercase"
  | InvalidKeyword k => js "Invalid keyword: " ++ k
  | MultipleSpaces => js "Multiple spaces found where single space expected"
  | MethodCase => js "HTTP method must be uppercase"
  | InvalidMethod => js "Invalid HTTP method. Only GET and POST are supported"
  | UrlEmpty => js "URL cannot be empty"
  | UrlScheme => js "URL must start with http:// or https://"
  | DuplicateKeyword k => js "Duplicate keyword: " ++ k
  | HttpFirst => js "HTTP keyword must be first"
  | UrlSecond => js "URL keyword must be second"
  | MissingRequired k => js "Missing required " ++ k ++ js " keyword"
  | InvalidJson n => js "Invalid JSON format in " ++ n ++ js " section"
  | NativeSyntaxError m => m
  end.

Inductive Result (A : Type) : Type :=
| Ok (a : A)
| Throw (e : Error).

Arguments Ok {A} a.
Arguments Throw {A} e.

Definition bind {A B : Type} (r : Result A) (k : A -> Result B) : Result B :=
  match r with
  | Ok a => k a
  | Throw e => Throw e
  end.

Notation "x <- r ;; k" := (bind r (fun x => k))
  (at level 61, r at next level, right associativity).
Notation "r ;;; k" := (bind r (fun _ => k))
  (at level 61, right associativity).

(** ** The parser: constants *)

Definition VALID_METHODS : list jsstring := [js "GET"; js "POST"].
Definition REQUIRED_KEYWORDS : list jsstring := [js "HTTP"; js "URL"].
Definition OPTIONAL_KEYWORDS : list jsstring := [js "HEADERS"; js "QUERY"; js "BODY"].
Definition ALL_KEYWORDS : list jsstring := REQUIRED_KEYWORDS ++ OPTIONAL_KEYWORDS.

(** ** splitByPipe *)

(** The [while] loop of [splitByPipe].  [rest] is the input from index [i]
    on and [prev] is [reqline[i - 1]] ([None] when [i === 0]).  On a pipe the
    loop checks the unit before and the unit after it, pushes the trimmed
    piece and moves past the pipe and the unit that follows it. *)
Fixpoint splitLoop (prev : option codeunit) (rest current : jsstring)
    (segments : list jsstring) : Result (list jsstring * jsstring) :=
  match rest with
  | [] => Ok (segments, current)
  | c :: rest' =>
      if N.eqb c PIPE then
        match prev with
        | Some p =>
            if N.eqb p SPACE then
              match rest' with
              | [] => Throw PipeSpacing
              | d :: rest'' =>
                  if N.eqb d SPACE
                  then splitLoop (Some d) rest'' [] (segments ++ [trim current])
                  else Throw PipeSpacing
              end
            else Throw PipeSpacing
        | None => Throw PipeSpacing
        end
      else splitLoop (Some c) rest' (current ++ [c]) segments
  end.

Definition splitByPipe (reqline : jsstring) : Result (list jsstring) :=
  st <- splitLoop None reqline [] [] ;;
  let '(segments, current) := st in
  let segments :=
    match trim current with
    | [] => segments
    | _ :: _ => segments ++ [trim current]
    end in
  if (length segments <? 2)%nat then Throw MissingSections else Ok segments.

(** ** parseSegment *)

(** The index of the first space, [None] for the source's [-1]. *)
Fixpoint firstSpace (s : jsstring) : option nat :=
  match s with
  | [] => None
  | c :: s' =>
      if N.eqb c SPACE then Some 0%nat
      else option_map S (firstSpace s')
  end.

Definition lowercaseKeyword (keyword : jsstring) : bool :=
  let k := toLowerCase keyword in
  str_eqb k (js "http") || str_eqb k (js "url") || str_eqb k (js "headers")
  || str_eqb k (js "query") || str_eqb k (js "body").

Definition parseSegment (segment : jsstring) (index : nat)
    : Result (jsstring * jsstring) :=
  let trimmed := trim segment in
  match trimmed with
  | [] => Throw EmptySegment
  | _ :: _ =>
      match firstSpace trimmed with
      | None => Throw MissingSpace
      | Some spaceIndex =>
          let keyword := substring_to spaceIndex trimmed in
          let value := substring_from (spaceIndex + 1) trimmed in
          (if negb (includes_str ALL_KEYWORDS keyword) then
             if lowercaseKeyword keyword then Throw KeywordCase
             else Throw (InvalidKeyword keyword)
           else Ok tt) ;;;
          (if startsWith value [SPACE] then Throw MultipleSpaces else Ok tt) ;;;
          (if str_eqb keyword (js "HTTP") then
             if negb (includes_str VALID_METHODS value) then
               if str_eqb (toUpperCase value) (js "GET")
                  || str_eqb (toUpperCase value) (js "POST")
               then Throw MethodCase
               else Throw InvalidMethod
             else Ok tt
           else Ok tt) ;;;
          (if str_eqb keyword (js "URL") then
             match trim value with
             | [] => Throw UrlEmpty
             | _ :: _ =>
                 if negb (startsWith value (js "http://"))
                    && negb (startsWith value (js "https://"))
                 then Throw UrlScheme
                 else Ok tt
             end
           else Ok tt) ;;;
          Ok (keyword, trim value)
      end
  end.

(** ** JSON values and [JSON.parse] *)

(** A number is kept as the exact rational value of its literal; the source
    holds its rounding to a binary64. *)
#[local] Unset Elimination Schemes.
Inductive json : Type :=
| JNull
| JBool (b : bool)
| JNumber (q : Q)
| JString (s : jsstring)
| JArray (items : list json)
| JObject (props : list (jsstring * json)).
#[local] Set Elimination Schemes.

(** Own properties of a JavaScript object, in insertion order. *)
Fixpoint obj_get {V : Type} (key : jsstring) (o : list (jsstring * V)) : option V :=
  match o with
  | [] => None
  | (k, v) :: o' => if str_eqb k key then Some v else obj_get key o'
  end.

(** [o[key] = v]: an existing property keeps its place, a new one is added
    at the end. *)
Fixpoint obj_set {V : Type} (key : jsstring) (v : V) (o : list (jsstring * V))
    : list (jsstring * V) :=
  match o with
  | [] => [(key, v)]
  | (k, w) :: o' =>
      if str_eqb k key then (k, v) :: o' else (k, w) :: obj_set key v o'
  end.

Definition json_ws (c : codeunit) : bool :=
  ((c =? 9) || (c =? 10) || (c =? 13) || (c =? 32))%N.

Fixpoint skip_ws (s : jsstring) : jsstring :=
  match s with
  | [] => []
  | c :: s' => if json_ws c then skip_ws s' else s
  end.

Definition is_digit (c : codeunit) : bool := ((48 <=? c) && (c <=? 57))%N.

Fixpoint take_digits (s : jsstring) : jsstring * jsstring :=
  match s with
  | [] => ([], [])
  | c :: s' =>
      if is_digit c then let '(ds, r) := take_digits s' in (c :: ds, r)
      else ([], s)
  end.

Definition digits_value (ds : jsstring) : Z :=
  fold_left (fun acc d => (acc * 10 + (Z.of_N d - 48))%Z) ds 0%Z.

Definition hex_value (c : codeunit) : option N :=
  if is_digit c then Some (c - 48)%N
  else if ((97 <=? c) && (c <=? 102))%N then Some (c - 87)%N
  else if ((65 <=? c) && (c <=? 70))%N then Some (c - 55)%N
  else None.

Definition hex4 (a b c d : codeunit) : option codeunit :=
  match hex_value a, hex_value b, hex_value c, hex_value d with
  | Some x, Some y, Some z, Some w => Some (((x * 16 + y) * 16 + z) * 16 + w)%N
  | _, _, _, _ => None
  end.

(** The characters of a string literal after its opening quote, up to the
    closing quote; [acc] holds the decoded units in reverse. *)
Fixpoint string_chars (s acc : jsstring) : option (jsstring * jsstring) :=
  match s with
  | [] => None
  | c :: r =>
      if N.eqb c QUOTE then Some (rev acc, r)
      else if N.eqb c 92 then
        match r with
        | e :: r' =>
            if N.eqb e 34 then string_chars r' (34%N :: acc)
            else if N.eqb e 92 then string_chars r' (92%N :: acc)
            else if N.eqb e 47 then string_chars r' (47%N :: acc)
            else if N.eqb e 98 then string_chars r' (8%N :: acc)
            else if N.eqb e 102 then string_chars r' (12%N :: acc)
            else if N.eqb e 110 then string_chars r' (10%N :: acc)
            else if N.eqb e 114 then string_chars r' (13%N :: acc)
            else if N.eqb e 116 then string_chars r' (9%N :: acc)
            else if N.eqb e 117 then
              match r' with
              | h1 :: h2 :: h3 :: h4 :: r'' =>
                  match hex4 h1 h2 h3 h4 with
                  | Some u => string_chars r'' (u :: acc)
                  | None => None
                  end
              | _ => None
              end
            else None
        | [] => None
        end
      else if (c <? 32)%N then None
      else string_chars r (c :: acc)
  end.

(** A number literal: an optional minus sign; a zero, or a digit from 1 to 9
    and any digits; an optional point and one or more digits; an optional
    exponent mark, sign and one or more digits. *)
Definition literal_sign (s : jsstring) : bool * jsstring :=
  match s with
  | c :: r => if N.eqb c 45 then (true, r) else (false, s)
  | [] => (false, s)
  end.

Definition literal_int (s : jsstring) : option (jsstring * jsstring) :=
  match s with
  | c :: r =>
      if N.eqb c 48 then Some ([c], r)
      else if is_digit c then Some (take_digits s)
      else None
  | [] => None
  end.

Definition literal_frac (s : jsstring) : option (jsstring * jsstring) :=
  match s with
  | c :: r =>
      if N.eqb c 46 then
        match take_digits r with
        | ([], _) => None
        | (fp, r') => Some (fp, r')
        end
      else Some ([], s)
  | [] => Some ([], s)
  end.

Definition literal_exp_sign (s : jsstring) : bool * jsstring :=
  match s with
  | c :: r =>
      if N.eqb c 43 then (false, r)
      else if N.eqb c 45 then (true, r)
      else (false, s)
  | [] => (false, s)
  end.

Definition literal_exp (s : jsstring) : option (Z * jsstring) :=
  match s with
  | c :: r =>
      if N.eqb c 69 || N.eqb c 101 then
        let '(negative, r1) := literal_exp_sign r in
        match take_digits r1 with
        | ([], _) => None
        | (ep, r2) =>
            Some ((if negative then - digits_value ep else digits_value ep)%Z, r2)
        end
      else Some (0%Z, s)
  | [] => Some (0%Z, s)
  end.

Definition number_literal (s : jsstring) : option (Q * jsstring) :=
  let '(negative, s1) := literal_sign s in
  match literal_int s1 with
  | None => None
  | Some (ip, s2) =>
      match literal_frac s2 with
      | None => None
      | Some (fp, s3) =>
          match literal_exp s3 with
          | None => None
          | Some (e, s4) =>
              let m := digits_value (ip ++ fp) in
              let m := (if negative then - m else m)%Z in
              Some (Qred (inject_Z m * Qpower (inject_Z 10)
                                         (e - Z.of_nat (List.length fp))), s4)
          end
      end
  end.

Inductive Parsed (A : Type) : Type :=
| Done (a : A) (rest : jsstring)
| Fail
| OutOfFuel.

Arguments Done {A} a rest.
Arguments Fail {A}.
Arguments OutOfFuel {A}.

(** The JSON grammar by recursive descent.  [parse_elements] reads the
    elements of an array after its opening bracket or a comma, and
    [parse_members] the members of an object likewise; a repeated key keeps
    its place and takes the last value. *)
Fixpoint parse_value (fuel : nat) (s : jsstring) {struct fuel} : Parsed json :=
  match fuel with
  | O => OutOfFuel
  | S fuel' =>
      match skip_ws s with
      | [] => Fail
      | c :: r =>
          if N.eqb c 123 then
            match skip_ws r with
            | d :: r' =>
                if N.eqb d 125 then Done (JObject []) r'
                else parse_members fuel' r []
            | [] => Fail
            end
          else if N.eqb c 91 then
            match skip_ws r with
            | d :: r' =>
                if N.eqb d 93 then Done (JArray []) r'
                else parse_elements fuel' r []
            | [] => Fail
            end
          else if N.eqb c QUOTE then
            match string_chars r [] with
            | Some (str, r') => Done (JString str) r'
            | None => Fail
            end
          else if startsWith (c :: r) (js "true") then
            Done (JBool true) (skipn 4 (c :: r))
          else if startsWith (c :: r) (js "false") then
            Done (JBool false) (skipn 5 (c :: r))
          else if startsWith (c :: r) (js "null") then
            Done JNull (skipn 4 (c :: r))
          else
            match number_literal (c :: r) with
            | Some (q, r') => Done (JNumber q) r'
            | None => Fail
            end
      end
  end

with parse_elements (fuel : nat) (s : jsstring) (acc : list json) {struct fuel}
    : Parsed json :=
  match fuel with
  | O => OutOfFuel
  | S fuel' =>
      match parse_value fuel' s with
      | Done v r =>
          match skip_ws r with
          | c :: r' =>
              if N.eqb c 44 then parse_elements fuel' r' (v :: acc)
              else if N.eqb c 93 then Done (JArray (rev (v :: acc))) r'
              else Fail
          | [] => Fail
          end
      | Fail => Fail
      | OutOfFuel => OutOfFuel
      end
  end

with parse_members (fuel : nat) (s : jsstring) (acc : list (jsstring * json))
    {struct fuel} : Parsed json :=
  match fuel with
  | O => OutOfFuel
  | S fuel' =>
      match skip_ws s with
      | q :: r =>
          if N.eqb q QUOTE then
            match string_chars r [] with
            | Some (key, r1) =>
                match skip_ws r1 with
                | c :: r2 =>
                    if N.eqb c 58 then
                      match parse_value fuel' r2 with
                      | Done v r3 =>
                          match skip_ws r3 with
                          | d :: r4 =>
                              if N.eqb d 44
                              then parse_members fuel' r4 (obj_set key v acc)
                              else if N.eqb d 125
                              then Done (JObject (obj_set key v acc)) r4
                              else Fail
                          | [] => Fail
                          end
                      | Fail => Fail
                      | OutOfFuel => OutOfFuel
                      end
                    else Fail
                | [] => Fail
                end
            | None => Fail
            end
          else Fail
      | [] => Fail
      end
  end.

(** [JSON.parse(text)]: [None] when it throws a [SyntaxError]. *)
Definition JSON_parse (text : jsstring) : option json :=
  match parse_value (2 * List.length text + 2) text with
  | Done v rest =>
      match skip_ws rest with
      | [] => Some v
      | _ :: _ => None
      end
  | Fail => None
  | OutOfFuel => None
  end.

(** ** JavaScript truthiness *)

(** A number is falsy when it is zero as a binary64: a literal whose
    magnitude is at most half the least subnormal rounds to zero. *)
Definition truthy (v : json) : bool :=
  match v with
  | JNull => false
  | JBool b => b
  | JNumber q => negb (Qle_bool (Qabs q) (Qpower (inject_Z 2) (-1075)))
  | JString s => match s with [] => false | _ :: _ => true end
  | JArray _ => true
  | JObject _ => true
  end.

(** Truthiness of a property read: a missing property is [undefined]. *)
Definition truthy_prop (p : option json) : bool :=
  match p with
  | None => false
  | Some v => truthy v
  end.

(** The same for the string-valued properties of [parsedSegments]. *)
Definition truthy_string (p : option jsstring) : bool :=
  match p with
  | Some (_ :: _) => true
  | _ => false
  end.

(** ** The parser: sections, order, required keywords *)

Section Parser.

(** The message of the [SyntaxError] that [JSON.parse] throws on a text it
    rejects.  ECMAScript leaves the message to the implementation. *)
Variable syntaxErrorMessage : jsstring -> jsstring.

(** The statements of the [try] block of [parseJsonSection]. *)
Definition parseJsonSection_try (jsonString sectionName : jsstring) : Result json :=
  match JSON_parse jsonString with
  | None => Throw (NativeSyntaxError (syntaxErrorMessage jsonString))
  | Some parsed =>
      match parsed with
      | JObject _ => Ok parsed
      | _ => Throw (InvalidJson sectionName)
      end
  end.

(** [parseJsonSection]: the [catch] block throws the caught error again when
    its message contains 'JSON format', and the section error otherwise. *)
Definition parseJsonSection (jsonString sectionName : jsstring) : Result json :=
  match parseJsonSection_try jsonString sectionName with
  | Ok parsed => Ok parsed
  | Throw error =>
      if includes (message error) (js "JSON format") then Throw error
      else Throw (InvalidJson sectionName)
  end.

(** The [for] loop of [parseReqline] over the segments.  [parsedSegments]
    is read at keys of [ALL_KEYWORDS] only, since [parseSegment] throws on
    every other keyword; none of these is a property of [Object.prototype]. *)
Fixpoint parseSegments (segments : list jsstring) (i : nat)
    (parsedSegments : list (jsstring * jsstring))
    : Result (list (jsstring * jsstring)) :=
  match segments with
  | [] => Ok parsedSegments
  | segment :: segments' =>
      kv <- parseSegment segment i ;;
      let '(keyword, value) := kv in
      if truthy_string (obj_get keyword parsedSegments)
      then Throw (DuplicateKeyword keyword)
      else parseSegments segments' (S i) (obj_set keyword value parsedSegments)
  end.

(** [segment.split(' ')[0]]. *)
Definition firstWord (segment : jsstring) : jsstring :=
  nth 0 (split_space segment) [].

Definition validateKeywordOrder (segments : list jsstring) : Result unit :=
  match segments with
  | first :: second :: _ =>
      let firstKeyword := firstWord first in
      let secondKeyword := firstWord second in
      if negb (str_eqb firstKeyword (js "HTTP")) then Throw HttpFirst
      else if negb (str_eqb secondKeyword (js "URL")) then
        if negb (includes_str ALL_KEYWORDS secondKeyword) then Throw UrlSecond
        else Throw (MissingRequired (js "URL"))
      else Ok tt
  | _ => Throw MissingSections
  end.

Fixpoint requireKeywords (keywords : list jsstring)
    (parsedSegments : list (jsstring * jsstring)) : Result unit :=
  match keywords with
  | [] => Ok tt
  | keyword :: keywords' =>
      if negb (truthy_string (obj_get keyword parsedSegments))
      then Throw (MissingRequired keyword)
      else requireKeywords keywords' parsedSegments
  end.

Definition validateRequiredKeywords (parsedSegments : list (jsstring * jsstring))
    : Result unit :=
  requireKeywords REQUIRED_KEYWORDS parsedSegments.

(** The object that [parseReqline] returns; [None] stands for [undefined]. *)
Record ParsedRequest : Type := {
  method : option jsstring;
  url : option jsstring;
  headers : json;
  query : json;
  body : json
}.

(** An optional section: the default empty object unless the property is
    truthy. *)
Definition optionalSection (parsedSegments : list (jsstring * jsstring))
    (sectionName : jsstring) : Result json :=
  match obj_get sectionName parsedSegments with
  | Some (c :: text) => parseJsonSection (c :: text) sectionName
  | _ => Ok (JObject [])
  end.

Definition parseReqline (reqline : jsstring) : Result ParsedRequest :=
  match trim reqline with
  | [] => Throw EmptyReqline
  | _ :: _ =>
      segments <- splitByPipe reqline ;;
      parsedSegments <- parseSegments segments 0 [] ;;
      validateKeywordOrder segments ;;;
      validateRequiredKeywords parsedSegments ;;;
      h <- optionalSection parsedSegments (js "HEADERS") ;;
      q <- optionalSection parsedSegments (js "QUERY") ;;
      b <- optionalSection parsedSegments (js "BODY") ;;
      Ok {| method := obj_get (js "HTTP") parsedSegments;
            url := obj_get (js "URL") parsedSegments;
            headers := h; query := q; body := b |}
  end.

End Parser.

(** ** The request service *)

Definition obj := list (jsstring * json).

(** [Object.keys(o)]. *)
Definition Object_keys (o : obj) : list jsstring := List.map fst o.

(** The request that [executeRequest] destructures.  [index.js] passes it
    the result of [parseReqline], whose [headers], [query] and [body] are
    objects and whose [method] and [url] are strings. *)
Record Request : Type := {
  req_method : jsstring;
  req_url : jsstring;
  req_headers : obj;
  req_query : obj;
  req_body : obj
}.

Definition toRequest (p : ParsedRequest) : option Request :=
  match method p, url p, headers p, query p, body p with
  | Some m, Some u, JObject h, JObject q, JObject b =>
      Some {| req_method := m; req_url := u; req_headers := h;
              req_query := q; req_body := b |}
  | _, _, _, _, _ => None
  end.

Record AxiosConfig : Type := {
  cfg_method : jsstring;
  cfg_url : jsstring;
  cfg_headers : obj;
  cfg_timeout : N;
  cfg_data : option obj
}.

(** The configuration that [executeRequest] hands to axios: the statements
    from [const axiosConfig] to the end of the POST branch. *)
Definition axiosConfigOf (r : Request) (fullUrl : jsstring) : AxiosConfig :=
  if str_eqb (req_method r) (js "POST")
     && (0 <? List.length (Object_keys (req_body r)))%nat
  then
    if negb (truthy_prop (obj_get (js "Content-Type") (req_headers r)))
       && negb (truthy_prop (obj_get (js "content-type") (req_headers r)))
    then
      {| cfg_method := toLowerCase (req_method r); cfg_url := fullUrl;
         cfg_headers :=
           obj_set (js "Content-Type") (JString (js "application/json"))
                   (req_headers r);
         cfg_timeout := 30000; cfg_data := Some (req_body r) |}
    else
      {| cfg_method := toLowerCase (req_method r); cfg_url := fullUrl;
         cfg_headers := req_headers r;
         cfg_timeout := 30000; cfg_data := Some (req_body r) |}
  else
    {| cfg_method := toLowerCase (req_method r); cfg_url := fullUrl;
       cfg_headers := req_headers r;
       cfg_timeout := 30000; cfg_data := None |}.

(** How the promise of axios settles. *)
Inductive AxiosReply : Type :=
| Resolved (status : N) (data : option json)
| ErrorWithResponse (status : N) (data : option json) (statusText : jsstring)
| ErrorWithRequest
| ErrorOther (msg : jsstring).

Record RequestEcho : Type := {
  echo_query : obj;
  echo_body : obj;
  echo_headers : obj;
  full_url : jsstring
}.

Record ResponseInfo : Type := {
  http_status : N;
  duration : Z;
  request_start_timestamp : Z;
  request_stop_timestamp : Z;
  response_data : option json
}.

Inductive Settled : Type :=
| Fulfilled (request : RequestEcho) (response : ResponseInfo)
| Rejected (msg : jsstring)
| RejectedByURL.

Section Service.

(** The platform: the WHATWG [URL] class ([None] when [new URL] throws),
    the axios call, and the two readings of [Date.now()]. *)
Variable urlWithParams : jsstring -> obj -> option jsstring.
Variable axios : AxiosConfig -> AxiosReply.
Variable requestStartTimestamp requestStopTimestamp : Z.

Definition buildFullUrl (baseUrl : jsstring) (queryParams : obj) : option jsstring :=
  if (List.length (Object_keys queryParams) =? 0)%nat then Some baseUrl
  else urlWithParams baseUrl queryParams.

Definition executeRequest (parsedRequest : Request) : Settled :=
  match buildFullUrl (req_url parsedRequest) (req_query parsedRequest) with
  | None => RejectedByURL
  | Some fullUrl =>
      let axiosConfig := axiosConfigOf parsedRequest fullUrl in
      let echo := {| echo_query := req_query parsedRequest;
                     echo_body := req_body parsedRequest;
                     echo_headers := req_headers parsedRequest;
                     full_url := fullUrl |} in
      let info status data :=
        {| http_status := status;
           duration := (requestStopTimestamp - requestStartTimestamp)%Z;
           request_start_timestamp := requestStartTimestamp;
           request_stop_timestamp := requestStopTimestamp;
           response_data := data |} in
      match axios axiosConfig with
      | Resolved status data => Fulfilled echo (info status data)
      | ErrorWithResponse status data statusText =>
          Fulfilled echo
            (info status
               (if truthy_prop data then data
                else Some (JObject [(js "error", JString statusText)])))
      | ErrorWithRequest =>
          Rejected (js "Network error: Unable to reach " ++ fullUrl)
      | ErrorOther msg => Rejected (js "Request error: " ++ msg)
      end
  end.

End Service.

(** ** Vocabulary of the properties *)

(** The errors that [parseSegment] can throw. *)
Definition segment_error (e : Error) : bool :=
  match e with
  | EmptySegment | MissingSpace | KeywordCase | InvalidKeyword _
  | MultipleSpaces | MethodCase | InvalidMethod | UrlScheme => true
  | _ => false
  end.

Definition trimmed (segment : jsstring) : Prop := trim segment = segment.

(** The keyword of a segment, as [validateKeywordOrder] reads it. *)
Definition keywordOf (segment : jsstring) : jsstring := firstWord segment.

Definition classifiable (segment : jsstring) : Prop :=
  exists k v, parseSegment segment 0 = Ok (k, v).

(** The segments that [splitByPipe] collects, before it counts them. *)
Definition piecesOf (reqline : jsstring) : list jsstring :=
  match splitLoop None reqline [] [] with
  | Ok (segments, current) =>
      match trim current with
      | [] => segments
      | _ :: _ => segments ++ [trim current]
      end
  | Throw _ => []
  end.

(** The keywords that occur in an input. *)
Definition keywordsIn (reqline : jsstring) : list jsstring :=
  List.map keywordOf (piecesOf reqline).

(** The keyword and the value that [parseSegment] takes from a segment:
    the text before the first space and the text after it. *)
Definition candidate (segment : jsstring) : option (jsstring * jsstring) :=
  match firstSpace (trim segment) with
  | Some spaceIndex =>
      Some (substring_to spaceIndex (trim segment),
            substring_from (spaceIndex + 1) (trim segment))
  | None => None
  end.

(** The stages of [parseReqline] before the optional sections. *)
Definition classified (reqline : jsstring) : Result (list (jsstring * jsstring)) :=
  match trim reqline with
  | [] => Throw EmptyReqline
  | _ :: _ =>
      segments <- splitByPipe reqline ;;
      parsedSegments <- parseSegments segments 0 [] ;;
      validateKeywordOrder segments ;;;
      validateRequiredKeywords parsedSegments ;;;
      Ok parsedSegments
  end.

(** The value text of a section, when the input has it and passes the
    earlier stages. *)
Definition sectionText (reqline sectionName : jsstring) : option jsstring :=
  match classified reqline with
  | Ok parsedSegments => obj_get sectionName parsedSegments
  | Throw _ => None
  end.

(** The text decodes to an object. *)
Definition accepts (text : jsstring) : bool :=
  match JSON_parse text with
  | Some (JObject _) => true
  | _ => false
  end.

(** The section is there and its text fails to decode or decodes to
    something other than an object. *)
Definition unaccepted (reqline sectionName : jsstring) : bool :=
  match sectionText reqline sectionName with
  | Some text => negb (accepts text)
  | None => false
  end.

(** The first such section in the order in which [parseReqline] reads
    them. *)
Definition firstUnaccepted (reqline : jsstring) : option jsstring :=
  find (unaccepted reqline) OPTIONAL_KEYWORDS.

(** The text fails to decode and the message of the engine's error
    contains 'JSON format', so that the [catch] block throws that error
    again. *)
Definition rethrown (syntaxErrorMessage : jsstring -> jsstring)
    (text : jsstring) : bool :=
  match JSON_parse text with
  | None => includes (syntaxErrorMessage text) (js "JSON format")
  | Some _ => false
  end.

Definition rethrownAt (syntaxErrorMessage : jsstring -> jsstring)
    (reqline sectionName : jsstring) : bool :=
  match sectionText reqline sectionName with
  | Some text => rethrown syntaxErrorMessage text
  | None => false
  end.

(** Two sample engines for the closed examples: one whose message does not
    show the text, and one whose message quotes it, as recent versions of
    V8 do. *)
Definition terseEngine (text : jsstring) : jsstring :=
  js "Unexpected token in JSON".

Definition quotingEngine (text : jsstring) : jsstring :=
  js "Unexpected token '" ++ firstn 1 text ++ js "', " ++ [QUOTE] ++ text
  ++ [QUOTE] ++ js " is not valid JSON".

(** The errors of the stages before the optional sections, and the errors
    of [parseReqline]. *)
Definition classified_error (e : Error) : bool :=
  match e with
  | EmptyReqline | PipeSpacing | MissingSections | DuplicateKeyword _
  | HttpFirst => true
  | MissingRequired k => str_eqb k (js "URL")
  | _ => segment_error e
  end.

Definition reqline_error (e : Error) : bool :=
  match e with
  | InvalidJson n => includes_str OPTIONAL_KEYWORDS n
  | NativeSyntaxError _ => true
  | _ => classified_error e
  end.

(** The pipes of the input are all spaced as [splitByPipe] wants them. *)
Definition wellSpaced (reqline : jsstring) : bool :=
  match splitLoop None reqline [] [] with
  | Ok _ => true
  | Throw _ => false
  end.

(** A literal between double quotes. *)
Definition quoted (s : string) : jsstring := [QUOTE] ++ js s ++ [QUOTE].

(** ** Further vocabulary *)

(** The segments written one after the other with [" | "] between them. *)
Fixpoint joinSegments (segments : list jsstring) : jsstring :=
  match segments with
  | [] => []
  | [segment] => segment
  | segment :: segments' => segment ++ js " | " ++ joinSegments segments'
  end.

(** A pipe of the input that has no space just before it or none just
    after it: [pre] is the text before the pipe and [post] the text after
    it. *)
Definition misplacedPipe (reqline : jsstring) : Prop :=
  exists pre post,
    reqline = pre ++ PIPE :: post
    /\ (last (List.map Some pre) None <> Some SPACE
        \/ hd_error post <> Some SPACE).

(** ** The route of index.js *)

(** [parseReqline] on any value of a JSON body: the [typeof] test sends
    every value that is not a string to the first error. *)
Definition parseReqlineOf (syntaxErrorMessage : jsstring -> jsstring)
    (reqline : json) : Result ParsedRequest :=
  match reqline with
  | JString s => parseReqline syntaxErrorMessage s
  | _ => Throw EmptyReqline
  end.

(** What the route sends back: [{error: true, message}] or the result of
    [executeRequest]. *)
Inductive ReplyBody : Type :=
| ErrorReply (msg : jsstring)
| ResultReply (request : RequestEcho) (response : ResponseInfo).

Record HttpReply : Type := {
  reply_status : N;
  reply_body : ReplyBody
}.

Section Route.

(** The platform of the route: the engine's message for a text that
    [JSON.parse] rejects, the [URL] class with the message of the
    [TypeError] of [new URL], the axios call and the clock. *)
Variable syntaxErrorMessage : jsstring -> jsstring.
Variable urlWithParams : jsstring -> obj -> option jsstring.
Variable invalidUrlMessage : jsstring.
Variable axios : AxiosConfig -> AxiosReply.
Variable requestStartTimestamp requestStopTimestamp : Z.

(** The handler of [app.post('/')], for a [req.body] that [express.json()]
    parsed to an object.  [None] stands for a result of [parseReqline] that
    [executeRequest] could not destructure; the properties below show that
    there is none. *)
Definition handlePost (body : obj) : option HttpReply :=
  match obj_get (js "reqline") body with
  | None =>
      Some {| reply_status := 400;
              reply_body := ErrorReply (js "Missing reqline parameter") |}
  | Some reqline =>
      if negb (truthy reqline) then
        Some {| reply_status := 400;
                reply_body := ErrorReply (js "Missing reqline parameter") |}
      else
        match parseReqlineOf syntaxErrorMessage reqline with
        | Throw error =>
            Some {| reply_status := 400;
                    reply_body := ErrorReply (message error) |}
        | Ok parsedRequest =>
            match toRequest parsedRequest with
            | None => None
            | Some request =>
                match executeRequest urlWithParams axios
                        requestStartTimestamp requestStopTimestamp request with
                | Fulfilled rq rs =>
                    Some {| reply_status := 200;
                            reply_body := ResultReply rq rs |}
                | Rejected msg =>
                    Some {| reply_status := 400;
                            reply_body := ErrorReply msg |}
                | RejectedByURL =>
                    Some {| reply_status := 400;
                            reply_body := ErrorReply invalidUrlMessage |}
                end
            end
        end
  end.

End Route.

(** * Properties *)

(** ** Strings *)

Lemma str_eqb_eq (a b : jsstring) : str_eqb a b = true <-> a = b.
Proof.
  revert b; induction a as [|x a IH]; intros [|y b]; simpl; split;
    try congruence; try reflexivity.
  - intros H. apply andb_prop in H as [Hx Hr].
    apply N.eqb_eq in Hx. apply IH in Hr. congruence.
  - intros H. injection H as -> ->.
    rewrite N.eqb_refl. simpl. now apply IH.
Qed.

Lemma str_eqb_refl (a : jsstring) : str_eqb a a = true.
Proof. now apply str_eqb_eq. Qed.

Lemma str_eqb_neq (a b : jsstring) : str_eqb a b = false <-> a <> b.
Proof.
  split.
  - intros H E. apply str_eqb_eq in E. congruence.
  - intros H. destruct (str_eqb a b) eqn:E; [|reflexivity].
    apply str_eqb_eq in E. contradiction.
Qed.

Lemma str_eqb_sym (a b : jsstring) : str_eqb a b = str_eqb b a.
Proof.
  destruct (str_eqb b a) eqn:E.
  - apply str_eqb_eq in E. subst. apply str_eqb_refl.
  - apply str_eqb_neq. apply str_eqb_neq in E. congruence.
Qed.

Lemma includes_str_In (l : list jsstring) (s : jsstring) :
  includes_str l s = true <-> In s l.
Proof.
  unfold includes_str. rewrite existsb_exists. split.
  - intros [x [Hin Heq]]. apply str_eqb_eq in Heq. now subst.
  - intros Hin. exists s. split; [assumption | apply str_eqb_refl].
Qed.

Lemma startsWith_app (s needle rest : jsstring) :
  startsWith s needle = true -> startsWith (s ++ rest) needle = true.
Proof.
  revert needle; induction s as [|c s IH]; intros [|p needle]; simpl;
    intros H; try reflexivity; try discriminate.
  apply andb_prop in H as [-> H]. simpl. now apply IH.
Qed.

Lemma includes_app_l (s needle rest : jsstring) :
  includes s needle = true -> includes (s ++ rest) needle = true.
Proof.
  induction s as [|c s IH]; simpl.
  - rewrite orb_false_r. destruct needle; [|discriminate].
    intros _. destruct rest; reflexivity.
  - intros H. apply orb_prop in H as [H|H].
    + change (c :: s ++ rest) with ((c :: s) ++ rest).
      rewrite (startsWith_app _ _ rest H). reflexivity.
    + rewrite (IH H). apply orb_true_r.
Qed.

(** ** trim *)

Lemma trimStart_nil (s : jsstring) :
  trimStart s = [] <-> (forall c, In c s -> is_ws c = true).
Proof.
  induction s as [|c s IH]; simpl.
  - split; [intros _ c [] | reflexivity].
  - destruct (is_ws c) eqn:Hc.
    + rewrite IH. split.
      * intros H d [<-|Hd]; auto.
      * intros H d Hd. apply H. now right.
    + split; [discriminate|]. intros H.
      specialize (H c (or_introl eq_refl)). congruence.
Qed.

Lemma trimStart_head (s : jsstring) (c : codeunit) (r : jsstring) :
  trimStart s = c :: r -> is_ws c = false.
Proof.
  induction s as [|d s IH]; simpl; [discriminate|].
  destruct (is_ws d) eqn:Hd; [assumption|].
  intros H. injection H as -> _. assumption.
Qed.

Lemma trimStart_fixed (c : codeunit) (r : jsstring) :
  is_ws c = false -> trimStart (c :: r) = c :: r.
Proof. intros H. simpl. now rewrite H. Qed.

(** What [trimStart] removes is a prefix of white space. *)
Lemma trimStart_split (s : jsstring) :
  exists p, s = p ++ trimStart s /\ (forall c, In c p -> is_ws c = true).
Proof.
  induction s as [|c s [p [Hs Hp]]]; simpl.
  - exists []. split; [reflexivity | intros c []].
  - destruct (is_ws c) eqn:Hc.
    + exists (c :: p). split; [simpl; congruence|].
      intros d [<-|Hd]; auto.
    + exists []. split; [reflexivity | intros d []].
Qed.

(** A trimmed string is empty or has no white space at either end. *)
Lemma trim_ends (s : jsstring) :
  trim s = [] \/
  exists a m z, trim s = a :: m /\ is_ws a = false
                /\ rev (trim s) = z :: rev (removelast (trim s)) /\ is_ws z = false.
Proof.
  unfold trim, trimEnd.
  destruct (trimStart (rev (trimStart s))) as [|z u] eqn:Hu.
  - now left.
  - right. pose proof (trimStart_head _ _ _ Hu) as Hz.
    destruct (trimStart_split (rev (trimStart s))) as [p [Hsplit Hp]].
    rewrite Hu in Hsplit.
    assert (Ht : trimStart s = rev (z :: u) ++ rev p).
    { rewrite <- rev_app_distr, <- Hsplit. now rewrite rev_involutive. }
    destruct (rev (z :: u)) as [|a m] eqn:Hr.
    + apply (f_equal (@List.length _)) in Hr. rewrite length_rev in Hr.
      discriminate.
    + exists a, m, z. split; [reflexivity|].
      split; [apply (trimStart_head s a (m ++ rev p)); now rewrite Ht |].
      split; [|assumption].
      rewrite <- Hr. rewrite rev_involutive. f_equal.
      simpl. rewrite removelast_last. now rewrite rev_involutive.
Qed.

Lemma trim_idempotent (s : jsstring) : trim (trim s) = trim s.
Proof.
  destruct (trim_ends s) as [H | [a [m [z [Ha [Hwa [Hz Hwz]]]]]]].
  - rewrite H. reflexivity.
  - unfold trim at 1. unfold trimEnd.
    rewrite Ha at 1. rewrite (trimStart_fixed _ _ Hwa). rewrite <- Ha.
    rewrite Hz. rewrite (trimStart_fixed _ _ Hwz). rewrite <- Hz.
    apply rev_involutive.
Qed.

Lemma trim_nil (s : jsstring) :
  trim s = [] <-> (forall c, In c s -> is_ws c = true).
Proof.
  unfold trim, trimEnd. split.
  - intros H. apply (f_equal (@rev _)) in H. rewrite rev_involutive in H.
    simpl in H. rewrite trimStart_nil in H.
    destruct (trimStart s) as [|c r] eqn:Hs.
    + now apply trimStart_nil.
    + pose proof (trimStart_head _ _ _ Hs) as Hc.
      specialize (H c). rewrite <- in_rev in H.
      specialize (H (or_introl eq_refl)). congruence.
  - intros H. apply trimStart_nil in H. rewrite H. reflexivity.
Qed.

(** The last unit of a non-empty trimmed string is not white space. *)
Lemma trim_last (s : jsstring) (d : codeunit) :
  trim s <> [] -> is_ws (last (trim s) d) = false.
Proof.
  intros Hne.
  destruct (trim_ends s) as [H | [a [m [z [Ha [Hwa [Hz Hwz]]]]]]];
    [contradiction|].
  apply (f_equal (@rev _)) in Hz. rewrite rev_involutive in Hz.
  simpl in Hz. rewrite rev_involutive in Hz.
  rewrite Hz. rewrite last_last. assumption.
Qed.

(** ** The first space and the first word *)

Lemma firstSpace_split (s : jsstring) (i : nat) :
  firstSpace s = Some i ->
  s = firstn i s ++ SPACE :: skipn (i + 1) s.
Proof.
  revert i; induction s as [|c s IH]; simpl; intros i H; [discriminate|].
  destruct (N.eqb c SPACE) eqn:Hc.
  - injection H as <-. apply N.eqb_eq in Hc. now subst.
  - destruct (firstSpace s) as [j|]; [|discriminate].
    injection H as <-. simpl. f_equal. now apply IH.
Qed.

Lemma split_space_nonempty (s : jsstring) : split_space s <> [].
Proof.
  destruct s as [|c s]; simpl; [discriminate|].
  destruct (N.eqb c SPACE); [discriminate|].
  destruct (split_space s); discriminate.
Qed.

(** [segment.split(' ')[0]] is the text before the first space. *)
Lemma firstWord_firstSpace (s : jsstring) (i : nat) :
  firstSpace s = Some i -> nth 0 (split_space s) [] = firstn i s.
Proof.
  revert i; induction s as [|c s IH]; simpl; intros i H; [discriminate|].
  destruct (N.eqb c SPACE) eqn:Hc.
  - injection H as <-. reflexivity.
  - destruct (firstSpace s) as [j|]; [|discriminate].
    injection H as <-. specialize (IH j eq_refl).
    pose proof (split_space_nonempty s) as Hne.
    destruct (split_space s) as [|piece pieces]; [contradiction|].
    simpl in *. now subst.
Qed.

(** ** parseSegment *)


(** After the first space of a trimmed text there is text that does not
    trim to nothing. *)
Lemma value_not_blank (x : jsstring) (i : nat) :
  firstSpace (trim x) = Some i -> trim (skipn (i + 1) (trim x)) <> [].
Proof.
  intros Hsp Hblank.
  assert (Hne : trim x <> []).
  { intros E. rewrite E in Hsp. discriminate. }
  pose proof (trim_last x SPACE Hne) as Hlast.
  pose proof (firstSpace_split _ _ Hsp) as Hsplit.
  rewrite trim_nil in Hblank.
  rewrite Hsplit in Hlast.
  destruct (skipn (i + 1) (trim x)) as [|v value] eqn:Hv.
  - rewrite last_last in Hlast. discriminate.
  - assert (Hin : In (last (v :: value) SPACE) (v :: value)).
    { destruct (exists_last (l := v :: value)) as [l' [z Hz]]; [discriminate|].
      rewrite Hz. rewrite last_last. apply in_or_app. right. now left. }
    replace (last (firstn i (trim x) ++ SPACE :: v :: value) SPACE)
      with (last (v :: value) SPACE) in Hlast.
    + apply Hblank in Hin. congruence.
    + change (SPACE :: v :: value) with ([SPACE] ++ (v :: value)).
      rewrite app_assoc.
      destruct (exists_last (l := v :: value)) as [l' [z Hz]]; [discriminate|].
      rewrite Hz. rewrite app_assoc. now rewrite !last_last.
Qed.

Lemma parseSegment_Ok (segment : jsstring) (index : nat) (k v : jsstring) :
  parseSegment segment index = Ok (k, v) ->
  exists i,
    firstSpace (trim segment) = Some i /\
    k = firstn i (trim segment) /\
    In k ALL_KEYWORDS /\
    v = trim (skipn (i + 1) (trim segment)) /\
    startsWith (skipn (i + 1) (trim segment)) [SPACE] = false.
Proof.
  unfold parseSegment.
  destruct (trim segment) as [|c t] eqn:Ht; [discriminate|].
  destruct (firstSpace (c :: t)) as [i|] eqn:Hsp; [|discriminate].
  unfold substring_to, substring_from.
  set (keyword := firstn i (c :: t)).
  set (value := skipn (i + 1) (c :: t)).
  destruct (includes_str ALL_KEYWORDS keyword) eqn:Hk; cbn [bind negb];
    [|destruct (lowercaseKeyword keyword); discriminate].
  destruct (startsWith value [SPACE]) eqn:Hms; cbn [bind negb]; [discriminate|].
  intros H. exists i.
  assert (Hres : k = keyword /\ v = trim value).
  { destruct (str_eqb keyword (js "HTTP"));
      [destruct (negb (includes_str VALID_METHODS value));
       [destruct (_ || _); discriminate|] |];
      cbn [bind negb] in H;
      (destruct (str_eqb keyword (js "URL"));
       [destruct (trim value); [discriminate|];
        destruct (_ && _); [discriminate|] |]);
      cbn [bind negb] in H; injection H as <- <-; auto. }
  destruct Hres as [-> ->].
  repeat split; try reflexivity; try assumption.
  now apply includes_str_In.
Qed.

Lemma parseSegment_Throw (segment : jsstring) (index : nat) (e : Error) :
  parseSegment segment index = Throw e -> segment_error e = true.
Proof.
  unfold parseSegment.
  destruct (trim segment) as [|c t] eqn:Ht.
  { intros H. injection H as <-. reflexivity. }
  destruct (firstSpace (c :: t)) as [i|] eqn:Hsp.
  2:{ intros H. injection H as <-. reflexivity. }
  unfold substring_to, substring_from.
  set (keyword := firstn i (c :: t)).
  set (value := skipn (i + 1) (c :: t)).
  assert (Hv : trim value <> []).
  { subst value. rewrite <- Ht. apply value_not_blank. now rewrite Ht. }
  destruct (includes_str ALL_KEYWORDS keyword); cbn [bind negb].
  2:{ destruct (lowercaseKeyword keyword); intros H; injection H as <-;
      reflexivity. }
  destruct (startsWith value [SPACE]); cbn [bind negb].
  { intros H. injection H as <-. reflexivity. }
  destruct (str_eqb keyword (js "HTTP"));
    [destruct (negb (includes_str VALID_METHODS value));
     [destruct (_ || _); intros H; injection H as <-; reflexivity|] |];
    cbn [bind negb];
    (destruct (str_eqb keyword (js "URL"));
     [destruct (trim value); [contradiction|];
      destruct (_ && _); [intros H; injection H as <-; reflexivity|] |]);
    cbn [bind negb]; discriminate.
Qed.

(** The index argument plays no part. *)
Lemma parseSegment_index (segment : jsstring) (i j : nat) :
  parseSegment segment i = parseSegment segment j.
Proof. reflexivity. Qed.

(** ** splitByPipe *)


(** Induction on the length of the input still to scan: the loop moves on
    by one unit or by two. *)
Lemma by_length (P : jsstring -> Prop) :
  (forall rest,
      (forall rest', (List.length rest' < List.length rest)%nat -> P rest') ->
      P rest) ->
  forall rest, P rest.
Proof.
  intros step rest.
  assert (H : forall n rest, (List.length rest < n)%nat -> P rest).
  { induction n as [|n IH]; intros r Hr; [lia|].
    apply step. intros r' Hr'. apply IH. lia. }
  apply (H (S (List.length rest))). lia.
Qed.

Lemma splitLoop_trimmed (rest : jsstring) :
  forall prev current segments segments' current',
    splitLoop prev rest current segments = Ok (segments', current') ->
    Forall trimmed segments -> Forall trimmed segments'.
Proof.
  induction rest as [rest IH] using by_length.
  intros prev current segments segments' current' H Hall.
  destruct rest as [|c rest']; simpl in H.
  - injection H as <- _. assumption.
  - destruct (N.eqb c PIPE).
    + destruct prev as [p|]; [|discriminate].
      destruct (N.eqb p SPACE); [|discriminate].
      destruct rest' as [|d rest'']; [discriminate|].
      destruct (N.eqb d SPACE); [|discriminate].
      apply (IH rest'') in H; [assumption | simpl; lia |].
      apply Forall_app. split; [assumption|].
      constructor; [apply trim_idempotent | constructor].
    + apply (IH rest') in H; [assumption | simpl; lia | assumption].
Qed.

Lemma splitLoop_Throw (rest : jsstring) :
  forall prev current segments e,
    splitLoop prev rest current segments = Throw e -> e = PipeSpacing.
Proof.
  induction rest as [rest IH] using by_length.
  intros prev current segments e H.
  destruct rest as [|c rest']; simpl in H; [discriminate|].
  destruct (N.eqb c PIPE).
  - destruct prev as [p|]; [|congruence].
    destruct (N.eqb p SPACE); [|congruence].
    destruct rest' as [|d rest'']; [congruence|].
    destruct (N.eqb d SPACE); [|congruence].
    apply (IH rest'') in H; [assumption | simpl; lia].
  - apply (IH rest') in H; [assumption | simpl; lia].
Qed.

(** Without a pipe the loop only accumulates. *)
Lemma splitLoop_blank (rest : jsstring) :
  forall prev current segments,
    (forall c, In c rest -> is_ws c = true) ->
    splitLoop prev rest current segments = Ok (segments, current ++ rest).
Proof.
  induction rest as [|c rest IH]; intros prev current segments Hws; simpl.
  - now rewrite app_nil_r.
  - destruct (N.eqb c PIPE) eqn:Hc.
    + apply N.eqb_eq in Hc. subst c.
      specialize (Hws PIPE (or_introl eq_refl)). discriminate.
    + rewrite IH.
      * now rewrite <- app_assoc.
      * intros d Hd. apply Hws. now right.
Qed.

Lemma last_cons {A : Type} (l : list A) (x d : A) :
  last (x :: l) d = last l x.
Proof.
  revert x d; induction l as [|y l IH]; intros x d; [reflexivity|].
  change (last (x :: y :: l) d) with (last (y :: l) d).
  now rewrite !IH.
Qed.

(** Up to the first pipe the loop accumulates, and remembers the unit it
    saw last. *)
Lemma splitLoop_before_pipe (pre : jsstring) :
  forall prev rest current segments,
    ~ In PIPE pre ->
    splitLoop prev (pre ++ rest) current segments =
    splitLoop (last (List.map Some pre) prev) rest (current ++ pre) segments.
Proof.
  induction pre as [|c pre IH]; intros prev rest current segments Hp.
  - simpl. now rewrite app_nil_r.
  - simpl app. cbn [splitLoop].
    destruct (N.eqb c PIPE) eqn:Hc.
    + apply N.eqb_eq in Hc. elim Hp. now left.
    + rewrite IH by (intros Hin; apply Hp; now right).
      cbn [List.map]. rewrite last_cons. now rewrite <- app_assoc.
Qed.

Lemma splitByPipe_Ok (reqline : jsstring) (segments : list jsstring) :
  splitByPipe reqline = Ok segments ->
  (2 <= List.length segments)%nat /\ Forall trimmed segments
  /\ trim reqline <> [].
Proof.
  unfold splitByPipe. intros H.
  destruct (splitLoop None reqline [] []) as [[segs current]|e] eqn:Hloop;
    cbn [bind] in H; [|discriminate].
  set (final := match trim current with
                | [] => segs
                | _ :: _ => segs ++ [trim current]
                end) in H.
  destruct (List.length final <? 2)%nat eqn:Hlen; [discriminate|].
  injection H as <-. apply Nat.ltb_ge in Hlen.
  split; [assumption|].
  pose proof (splitLoop_trimmed _ _ _ _ _ _ Hloop (Forall_nil _)) as Hsegs.
  split.
  - subst final. destruct (trim current) eqn:Hc; [assumption|].
    apply Forall_app. split; [assumption|].
    constructor; [|constructor]. unfold trimmed.
    rewrite <- Hc. apply trim_idempotent.
  - intros Hblank. rewrite trim_nil in Hblank.
    rewrite (splitLoop_blank _ None [] [] Hblank) in Hloop.
    injection Hloop as <- <-. simpl in final.
    apply trim_nil in Hblank. subst final. rewrite Hblank in Hlen.
    simpl in Hlen. lia.
Qed.

Lemma splitByPipe_Throw (reqline : jsstring) (e : Error) :
  splitByPipe reqline = Throw e -> e = PipeSpacing \/ e = MissingSections.
Proof.
  unfold splitByPipe. intros H.
  destruct (splitLoop None reqline [] []) as [[segs current]|e'] eqn:Hloop;
    cbn [bind] in H.
  - destruct (_ <? 2)%nat; [|discriminate]. injection H as <-. now right.
  - injection H as <-. left. eapply splitLoop_Throw; eassumption.
Qed.

(** ** Objects *)

Lemma obj_get_set_same {V : Type} (k : jsstring) (v : V) (o : list (jsstring * V)) :
  obj_get k (obj_set k v o) = Some v.
Proof.
  induction o as [|[k' w] o IH]; simpl.
  - now rewrite str_eqb_refl.
  - destruct (str_eqb k' k) eqn:E; simpl; rewrite E; auto.
Qed.

Lemma obj_get_set_other {V : Type} (k k' : jsstring) (v : V)
    (o : list (jsstring * V)) :
  k' <> k -> obj_get k' (obj_set k v o) = obj_get k' o.
Proof.
  intros Hne. induction o as [|[k0 w] o IH]; simpl.
  - apply str_eqb_neq in Hne. rewrite str_eqb_sym. now rewrite Hne.
  - destruct (str_eqb k0 k) eqn:E; simpl.
    + apply str_eqb_eq in E. subst k0.
      apply not_eq_sym in Hne. apply str_eqb_neq in Hne. now rewrite Hne.
    + destruct (str_eqb k0 k'); auto.
Qed.

(** ** The loop over the segments *)


Lemma parseSegment_keyword (segment : jsstring) (i : nat) (k v : jsstring) :
  parseSegment segment i = Ok (k, v) ->
  k = keywordOf (trim segment) /\ In k ALL_KEYWORDS /\ v <> [].
Proof.
  intros H. apply parseSegment_Ok in H as [j [Hsp [Hk [Hin [Hv _]]]]].
  split; [|split; [assumption|]].
  - unfold keywordOf, firstWord. now rewrite (firstWord_firstSpace _ _ Hsp).
  - subst v. now apply value_not_blank.
Qed.

Lemma truthy_string_Some (v : jsstring) :
  v <> [] -> truthy_string (Some v) = true.
Proof. destruct v; [contradiction | reflexivity]. Qed.

Lemma parseSegments_Throw (segments : list jsstring) :
  forall i parsedSegments e,
    parseSegments segments i parsedSegments = Throw e ->
    segment_error e = true \/ exists k, e = DuplicateKeyword k.
Proof.
  induction segments as [|segment segments IH]; intros i ps e H; simpl in H;
    [discriminate|].
  destruct (parseSegment segment i) as [[k v]|e'] eqn:Hseg; cbn [bind] in H.
  - destruct (truthy_string (obj_get k ps)).
    + injection H as <-. right. now exists k.
    + eapply IH; eassumption.
  - injection H as <-. left. eapply parseSegment_Throw; eassumption.
Qed.

Lemma parseSegments_classifiable (segments : list jsstring) :
  forall i parsedSegments parsedSegments',
    parseSegments segments i parsedSegments = Ok parsedSegments' ->
    Forall classifiable segments.
Proof.
  induction segments as [|segment segments IH]; intros i ps ps' H; simpl in H;
    [constructor|].
  destruct (parseSegment segment i) as [[k v]|e'] eqn:Hseg; cbn [bind] in H;
    [|discriminate].
  destruct (truthy_string (obj_get k ps)); [discriminate|].
  constructor; [now exists k, v | eapply IH; eassumption].
Qed.

(** A property that is set stays as it is to the end of the loop. *)
Lemma parseSegments_keeps (segments : list jsstring) :
  forall i parsedSegments parsedSegments' k v,
    parseSegments segments i parsedSegments = Ok parsedSegments' ->
    obj_get k parsedSegments = Some v -> v <> [] ->
    obj_get k parsedSegments' = Some v.
Proof.
  induction segments as [|segment segments IH]; intros i ps ps' k v H Hget Hv;
    simpl in H.
  - injection H as <-. assumption.
  - destruct (parseSegment segment i) as [[k' v']|e'] eqn:Hseg; cbn [bind] in H;
      [|discriminate].
    destruct (truthy_string (obj_get k' ps)) eqn:Hdup; [discriminate|].
    eapply IH; [eassumption | | assumption].
    rewrite obj_get_set_other; [assumption|].
    intros ->. rewrite Hget in Hdup.
    rewrite (truthy_string_Some _ Hv) in Hdup. discriminate.
Qed.

(** Every segment's value is in [parsedSegments] under its keyword. *)
Lemma parseSegments_stores (segments : list jsstring) :
  forall i parsedSegments parsedSegments' segment j k v,
    parseSegments segments i parsedSegments = Ok parsedSegments' ->
    In segment segments -> parseSegment segment j = Ok (k, v) ->
    obj_get k parsedSegments' = Some v.
Proof.
  induction segments as [|s0 segments IH];
    intros i ps ps' segment j k v H Hin Hseg; simpl in H; [destruct Hin|].
  destruct (parseSegment s0 i) as [[k0 v0]|e'] eqn:Hs0; cbn [bind] in H;
    [|discriminate].
  destruct (truthy_string (obj_get k0 ps)) eqn:Hdup; [discriminate|].
  destruct Hin as [<-|Hin].
  - rewrite (parseSegment_index s0 j i) in Hseg. rewrite Hs0 in Hseg.
    injection Hseg as <- <-.
    eapply parseSegments_keeps; [eassumption | apply obj_get_set_same |].
    now apply parseSegment_keyword in Hs0.
  - eapply IH; eassumption.
Qed.

(** A property of the final object was there at the start or is the
    keyword of a segment. *)
Lemma parseSegments_keys (segments : list jsstring) :
  forall i parsedSegments parsedSegments' k,
    parseSegments segments i parsedSegments = Ok parsedSegments' ->
    obj_get k parsedSegments' <> None ->
    obj_get k parsedSegments <> None
    \/ In k (List.map (fun s => keywordOf (trim s)) segments).
Proof.
  induction segments as [|s0 segments IH]; intros i ps ps' k H Hget;
    simpl in H.
  - injection H as <-. now left.
  - destruct (parseSegment s0 i) as [[k0 v0]|e'] eqn:Hs0; cbn [bind] in H;
      [|discriminate].
    destruct (truthy_string (obj_get k0 ps)) eqn:Hdup; [discriminate|].
    destruct (IH _ _ _ _ H Hget) as [Hold|Hin].
    + destruct (str_eqb k k0) eqn:E.
      * apply str_eqb_eq in E. subst k0. right. left.
        now apply parseSegment_keyword in Hs0 as [<- _].
      * apply str_eqb_neq in E. rewrite obj_get_set_other in Hold by assumption.
        now left.
    + right. now right.
Qed.

(** Segments that classify, with no keyword twice, pass the loop. *)
Lemma parseSegments_complete (segments : list jsstring) :
  forall i parsedSegments,
    Forall classifiable segments ->
    NoDup (List.map (fun s => keywordOf (trim s)) segments) ->
    (forall s, In s segments -> obj_get (keywordOf (trim s)) parsedSegments = None) ->
    exists parsedSegments', parseSegments segments i parsedSegments = Ok parsedSegments'.
Proof.
  induction segments as [|s0 segments IH]; intros i ps Hall Hnd Hfresh; simpl.
  - now exists ps.
  - inversion Hall as [|? ? [k0 [v0 Hs0]] Hall']; subst.
    inversion Hnd as [|? ? Hnotin Hnd']; subst.
    rewrite (parseSegment_index s0 i 0), Hs0. cbn [bind].
    pose proof (parseSegment_keyword _ _ _ _ Hs0) as [Hk0 _].
    rewrite Hk0. rewrite (Hfresh s0 (or_introl eq_refl)). simpl.
    apply IH; [assumption | assumption |].
    intros s Hs. rewrite obj_get_set_other.
    + apply Hfresh. now right.
    + intros E. apply Hnotin. rewrite <- E.
      apply in_map_iff. now exists s.
Qed.

(** ** Keyword order and required keywords *)

Lemma classifiable_keyword (segment : jsstring) :
  trimmed segment -> classifiable segment ->
  In (keywordOf segment) ALL_KEYWORDS.
Proof.
  intros Ht [k [v H]]. apply parseSegment_keyword in H as [Hk [Hin _]].
  rewrite Ht in Hk. now subst.
Qed.

Lemma validateKeywordOrder_Throw (segments : list jsstring) (e : Error) :
  Forall trimmed segments -> Forall classifiable segments ->
  validateKeywordOrder segments = Throw e ->
  e = MissingSections \/ e = HttpFirst \/ e = MissingRequired (js "URL").
Proof.
  intros Ht Hc. unfold validateKeywordOrder.
  destruct segments as [|s0 [|s1 rest]];
    try (intros H; injection H as <-; now left).
  destruct (negb (str_eqb (firstWord s0) (js "HTTP")));
    [intros H; injection H as <-; right; now left|].
  destruct (negb (str_eqb (firstWord s1) (js "URL"))); [|discriminate].
  assert (Hk : includes_str ALL_KEYWORDS (firstWord s1) = true).
  { apply includes_str_In. apply classifiable_keyword.
    - inversion Ht as [|? ? _ Ht']; now inversion Ht'.
    - inversion Hc as [|? ? _ Hc']; now inversion Hc'. }
  rewrite Hk. cbn [negb]. intros H. injection H as <-. right. now right.
Qed.

Lemma validateKeywordOrder_Ok (segments : list jsstring) :
  validateKeywordOrder segments = Ok tt ->
  exists s0 s1 rest, segments = s0 :: s1 :: rest
    /\ keywordOf s0 = js "HTTP" /\ keywordOf s1 = js "URL".
Proof.
  unfold validateKeywordOrder.
  destruct segments as [|s0 [|s1 rest]]; try discriminate.
  destruct (str_eqb (firstWord s0) (js "HTTP")) eqn:H0; cbn [negb];
    [|discriminate].
  destruct (str_eqb (firstWord s1) (js "URL")) eqn:H1; cbn [negb].
  - intros _. exists s0, s1, rest. apply str_eqb_eq in H0, H1. auto.
  - destruct (negb _); discriminate.
Qed.

(** After the loop and the order check both required keywords are set:
    [validateRequiredKeywords] cannot throw. *)
Lemma validateRequiredKeywords_Ok (segments : list jsstring)
    (parsedSegments : list (jsstring * jsstring)) :
  Forall trimmed segments ->
  parseSegments segments 0 [] = Ok parsedSegments ->
  validateKeywordOrder segments = Ok tt ->
  validateRequiredKeywords parsedSegments = Ok tt.
Proof.
  intros Ht Hloop Hord.
  apply validateKeywordOrder_Ok in Hord as [s0 [s1 [rest [-> [H0 H1]]]]].
  pose proof (parseSegments_classifiable _ _ _ _ Hloop) as Hc.
  assert (Hset : forall s, In s (s0 :: s1 :: rest) ->
            truthy_string (obj_get (keywordOf s) parsedSegments) = true).
  { intros s Hs.
    assert (Hts : trimmed s) by (rewrite Forall_forall in Ht; auto).
    rewrite Forall_forall in Hc. destruct (Hc s Hs) as [k [v Hkv]].
    pose proof (parseSegment_keyword _ _ _ _ Hkv) as [Hk [_ Hv]].
    rewrite Hts in Hk. subst k.
    rewrite (parseSegments_stores _ _ _ _ _ _ _ _ Hloop Hs Hkv).
    now apply truthy_string_Some. }
  unfold validateRequiredKeywords, REQUIRED_KEYWORDS. cbn [requireKeywords].
  rewrite <- H0, (Hset s0) by (now left). cbn [negb].
  rewrite <- H1, (Hset s1) by (right; now left). reflexivity.
Qed.

(** ** parseJsonSection *)

Section Sections.

Variable E : jsstring -> jsstring.

Lemma section_message_marked (sectionName : jsstring) :
  includes (message (InvalidJson sectionName)) (js "JSON format") = true.
Proof.
  unfold message. apply includes_app_l. reflexivity.
Qed.

Lemma parseJsonSection_accepts (text sectionName : jsstring) (v : json) :
  parseJsonSection E text sectionName = Ok v ->
  accepts text = true /\ exists o, v = JObject o.
Proof.
  unfold parseJsonSection, parseJsonSection_try, accepts.
  destruct (JSON_parse text) as [[| | | | |o]|];
    try (rewrite section_message_marked; discriminate).
  - intros H. injection H as <-. split; [reflexivity | now exists o].
  - cbn [message]. destruct (includes _ _); discriminate.
Qed.

Lemma parseJsonSection_unaccepted (text sectionName : jsstring) :
  accepts text = false -> rethrown E text = false ->
  parseJsonSection E text sectionName = Throw (InvalidJson sectionName).
Proof.
  unfold parseJsonSection, parseJsonSection_try, accepts, rethrown.
  destruct (JSON_parse text) as [[| | | | |o]|];
    try (intros _ _; rewrite section_message_marked; reflexivity).
  - discriminate.
  - intros _ H. cbn [message]. now rewrite H.
Qed.

Lemma parseJsonSection_rethrown (text sectionName : jsstring) :
  rethrown E text = true ->
  parseJsonSection E text sectionName = Throw (NativeSyntaxError (E text)).
Proof.
  unfold parseJsonSection, parseJsonSection_try, rethrown.
  destruct (JSON_parse text) as [v|]; [discriminate|].
  intros H. cbn [message]. now rewrite H.
Qed.

Lemma parseJsonSection_cases (text sectionName : jsstring) :
  (accepts text = true /\ exists o, parseJsonSection E text sectionName = Ok (JObject o))
  \/ (accepts text = false /\ rethrown E text = false
      /\ parseJsonSection E text sectionName = Throw (InvalidJson sectionName))
  \/ (accepts text = false /\ rethrown E text = true
      /\ parseJsonSection E text sectionName = Throw (NativeSyntaxError (E text))).
Proof.
  destruct (accepts text) eqn:Ha.
  - left. split; [reflexivity|].
    unfold parseJsonSection, parseJsonSection_try. unfold accepts in Ha.
    destruct (JSON_parse text) as [[| | | | |o]|]; try discriminate.
    now exists o.
  - right. destruct (rethrown E text) eqn:Hr.
    + right. repeat split. now apply parseJsonSection_rethrown.
    + left. repeat split. now apply parseJsonSection_unaccepted.
Qed.

End Sections.

(** ** The stages of parseReqline *)

Lemma splitByPipe_pieces (reqline : jsstring) (segments : list jsstring) :
  splitByPipe reqline = Ok segments -> piecesOf reqline = segments.
Proof.
  unfold splitByPipe, piecesOf.
  destruct (splitLoop None reqline [] []) as [[segs current]|e];
    cbn [bind]; [|discriminate].
  destruct (_ <? 2)%nat; [discriminate|]. congruence.
Qed.

Lemma parseSegments_values (segments : list jsstring) :
  forall i parsedSegments parsedSegments',
    parseSegments segments i parsedSegments = Ok parsedSegments' ->
    (forall k v, obj_get k parsedSegments = Some v -> v <> []) ->
    forall k v, obj_get k parsedSegments' = Some v -> v <> [].
Proof.
  induction segments as [|s0 segments IH]; intros i ps ps' H Hps; simpl in H.
  - injection H as <-. assumption.
  - destruct (parseSegment s0 i) as [[k0 v0]|e'] eqn:Hs0; cbn [bind] in H;
      [|discriminate].
    destruct (truthy_string (obj_get k0 ps)); [discriminate|].
    apply (IH _ _ _ H). intros k v.
    destruct (str_eqb k k0) eqn:E.
    + apply str_eqb_eq in E. subst k0. rewrite obj_get_set_same.
      intros Hv. injection Hv as <-.
      now apply parseSegment_keyword in Hs0.
    + apply str_eqb_neq in E. rewrite obj_get_set_other by assumption.
      apply Hps.
Qed.

Lemma classified_inv (reqline : jsstring) (ps : list (jsstring * jsstring)) :
  classified reqline = Ok ps ->
  exists segments,
    trim reqline <> [] /\ splitByPipe reqline = Ok segments
    /\ parseSegments segments 0 [] = Ok ps
    /\ validateKeywordOrder segments = Ok tt.
Proof.
  unfold classified. intros H.
  destruct (trim reqline) eqn:Ht; [discriminate|].
  destruct (splitByPipe reqline) as [segments|] eqn:Hs; cbn [bind] in H;
    [|discriminate].
  destruct (parseSegments segments 0 []) as [ps'|] eqn:Hl; cbn [bind] in H;
    [|discriminate].
  destruct (validateKeywordOrder segments) as [[]|] eqn:Ho; cbn [bind] in H;
    [|discriminate].
  destruct (validateRequiredKeywords ps') as [[]|]; cbn [bind] in H;
    [|discriminate].
  injection H as <-. exists segments. repeat split; auto. discriminate.
Qed.

Lemma classified_Throw (reqline : jsstring) (e : Error) :
  classified reqline = Throw e -> classified_error e = true.
Proof.
  unfold classified. intros H.
  destruct (trim reqline) eqn:Ht; [injection H as <-; reflexivity|].
  destruct (splitByPipe reqline) as [segments|e1] eqn:Hs; cbn [bind] in H.
  2:{ injection H as <-. apply splitByPipe_Throw in Hs as [->| ->]; reflexivity. }
  apply splitByPipe_Ok in Hs as [_ [Htr _]].
  destruct (parseSegments segments 0 []) as [ps'|e2] eqn:Hl; cbn [bind] in H.
  2:{ injection H as H. subst e.
      apply parseSegments_Throw in Hl as [Hl|[k ->]]; [|reflexivity].
      destruct e2; try discriminate; reflexivity. }
  pose proof (parseSegments_classifiable _ _ _ _ Hl) as Hc.
  destruct (validateKeywordOrder segments) as [[]|e3] eqn:Ho; cbn [bind] in H.
  2:{ injection H as <-.
      apply (validateKeywordOrder_Throw _ _ Htr Hc) in Ho as [->|[->| ->]];
        reflexivity. }
  rewrite (validateRequiredKeywords_Ok _ _ Htr Hl Ho) in H. discriminate.
Qed.

(** The values that the loop stores are not empty. *)
Lemma classified_values (reqline : jsstring) (ps : list (jsstring * jsstring))
    (k v : jsstring) :
  classified reqline = Ok ps -> obj_get k ps = Some v -> v <> [].
Proof.
  intros H. apply classified_inv in H as [segments [_ [_ [Hl _]]]].
  apply (parseSegments_values _ _ _ _ Hl). discriminate.
Qed.

(** A property of [parsedSegments] is the keyword of a segment. *)
Lemma classified_keys (reqline : jsstring) (ps : list (jsstring * jsstring))
    (k : jsstring) :
  classified reqline = Ok ps -> obj_get k ps <> None ->
  In k (keywordsIn reqline).
Proof.
  intros H Hk. apply classified_inv in H as [segments [_ [Hs [Hl _]]]].
  unfold keywordsIn. rewrite (splitByPipe_pieces _ _ Hs).
  apply splitByPipe_Ok in Hs as [_ [Htr _]].
  destruct (parseSegments_keys _ _ _ _ k Hl Hk) as [Hnil|Hin];
    [now elim Hnil|].
  apply in_map_iff in Hin as [s [Hks Hs]].
  apply in_map_iff. exists s. split; [|assumption].
  rewrite Forall_forall in Htr. now rewrite (Htr s Hs) in Hks.
Qed.

Section Stages.

Variable E : jsstring -> jsstring.

(** [parseReqline] is the earlier stages followed by the three optional
    sections in the order HEADERS, QUERY, BODY. *)
Lemma parseReqline_classified (reqline : jsstring) :
  parseReqline E reqline =
  (parsedSegments <- classified reqline ;;
   h <- optionalSection E parsedSegments (js "HEADERS") ;;
   q <- optionalSection E parsedSegments (js "QUERY") ;;
   b <- optionalSection E parsedSegments (js "BODY") ;;
   Ok {| method := obj_get (js "HTTP") parsedSegments;
         url := obj_get (js "URL") parsedSegments;
         headers := h; query := q; body := b |}).
Proof.
  unfold parseReqline, classified.
  destruct (trim reqline); [reflexivity|].
  destruct (splitByPipe reqline) as [segments|]; cbn [bind]; [|reflexivity].
  destruct (parseSegments segments 0 []) as [ps|]; cbn [bind]; [|reflexivity].
  destruct (validateKeywordOrder segments) as [[]|]; cbn [bind]; [|reflexivity].
  destruct (validateRequiredKeywords ps) as [[]|]; reflexivity.
Qed.

(** What an optional section gives, by the state of its text. *)
Lemma optionalSection_cases (reqline : jsstring)
    (ps : list (jsstring * jsstring)) (name : jsstring) :
  classified reqline = Ok ps ->
  (unaccepted reqline name = false
   /\ exists o, optionalSection E ps name = Ok (JObject o))
  \/ (unaccepted reqline name = true /\ rethrownAt E reqline name = false
      /\ optionalSection E ps name = Throw (InvalidJson name))
  \/ (unaccepted reqline name = true /\ rethrownAt E reqline name = true
      /\ exists m, optionalSection E ps name = Throw (NativeSyntaxError m)).
Proof.
  intros Hc. unfold unaccepted, rethrownAt, sectionText, optionalSection.
  rewrite Hc.
  destruct (obj_get name ps) as [text|] eqn:Hg.
  2:{ left. split; [reflexivity | now exists []]. }
  pose proof (classified_values _ _ _ _ Hc Hg) as Hne.
  destruct text as [|c text]; [contradiction|].
  destruct (parseJsonSection_cases E (c :: text) name)
    as [[Ha Ho] | [[Ha [Hr Ht]] | [Ha [Hr Ht]]]]; rewrite Ha; cbn [negb].
  - left. split; [reflexivity | assumption].
  - right. left. auto.
  - right. right. repeat split; auto. eauto.
Qed.

Lemma optionalSection_absent (ps : list (jsstring * jsstring)) (name : jsstring) :
  obj_get name ps = None -> optionalSection E ps name = Ok (JObject []).
Proof. unfold optionalSection. now intros ->. Qed.

Lemma parseReqline_Throw (reqline : jsstring) (e : Error) :
  parseReqline E reqline = Throw e -> reqline_error e = true.
Proof.
  rewrite parseReqline_classified.
  destruct (classified reqline) as [ps|e0] eqn:Hc; cbn [bind].
  2:{ intros H. injection H as <-. apply classified_Throw in Hc.
      destruct e0; try discriminate; try reflexivity; assumption. }
  destruct (optionalSection_cases reqline ps (js "HEADERS") Hc)
    as [[_ [o ->]] | [[_ [_ ->]] | [_ [_ [m ->]]]]]; cbn [bind];
    try (intros H; injection H as <-; reflexivity).
  destruct (optionalSection_cases reqline ps (js "QUERY") Hc)
    as [[_ [o' ->]] | [[_ [_ ->]] | [_ [_ [m ->]]]]]; cbn [bind];
    try (intros H; injection H as <-; reflexivity).
  destruct (optionalSection_cases reqline ps (js "BODY") Hc)
    as [[_ [o'' ->]] | [[_ [_ ->]] | [_ [_ [m ->]]]]]; cbn [bind];
    try (intros H; injection H as <-; reflexivity).
  discriminate.
Qed.

End Stages.

(** ** JSON.parse: the fuel is enough *)

Lemma skip_ws_length (s : jsstring) :
  (List.length (skip_ws s) <= List.length s)%nat.
Proof.
  induction s as [|c s IH]; simpl; [lia|].
  destruct (json_ws c); simpl; lia.
Qed.

Lemma take_digits_length (s : jsstring) :
  forall ds r, take_digits s = (ds, r) ->
               (List.length ds + List.length r = List.length s)%nat.
Proof.
  induction s as [|c s IH]; simpl; intros ds r H.
  - injection H as <- <-. reflexivity.
  - destruct (is_digit c).
    + destruct (take_digits s) as [ds' r'] eqn:Ht.
      injection H as <- <-. specialize (IH _ _ eq_refl). simpl. lia.
    + injection H as <- <-. reflexivity.
Qed.

Lemma string_chars_length (s : jsstring) :
  forall acc str r, string_chars s acc = Some (str, r) ->
                    (List.length r < List.length s)%nat.
Proof.
  induction s as [s IH] using by_length. intros acc str r H.
  destruct s as [|c s1]; simpl in H; [discriminate|].
  destruct (N.eqb c QUOTE).
  { injection H as _ <-. simpl. lia. }
  destruct (N.eqb c 92).
  - destruct s1 as [|e s2]; [discriminate|].
    repeat match type of H with
           | (if N.eqb e ?k then string_chars s2 _ else _) = _ =>
               destruct (N.eqb e k);
               [apply IH in H; simpl in *; lia|]
           end.
    destruct (N.eqb e 117); [|discriminate].
    destruct s2 as [|h1 [|h2 [|h3 [|h4 s3]]]]; try discriminate.
    destruct (hex4 h1 h2 h3 h4); [|discriminate].
    apply IH in H; simpl in *; lia.
  - destruct (c <? 32)%N; [discriminate|].
    apply IH in H; simpl in *; lia.
Qed.

Lemma literal_sign_length (s : jsstring) (negative : bool) (s1 : jsstring) :
  literal_sign s = (negative, s1) -> (List.length s1 <= List.length s)%nat.
Proof.
  unfold literal_sign. destruct s as [|c r]; [intros H; injection H as _ <-; lia|].
  destruct (N.eqb c 45); intros H; injection H as _ <-; simpl; lia.
Qed.

Lemma literal_int_length (s ip s2 : jsstring) :
  literal_int s = Some (ip, s2) -> (List.length s2 < List.length s)%nat.
Proof.
  unfold literal_int. destruct s as [|c r]; [discriminate|].
  destruct (N.eqb c 48); [intros H; injection H as _ <-; simpl; lia|].
  destruct (is_digit c) eqn:Hd; [|discriminate].
  intros H. assert (Ht : take_digits (c :: r) = (ip, s2)) by congruence.
  clear H. pose proof (take_digits_length _ _ _ Ht) as Hl.
  simpl in Ht. rewrite Hd in Ht. destruct (take_digits r).
  injection Ht as <- <-. simpl in *. lia.
Qed.

Lemma literal_frac_length (s fp s3 : jsstring) :
  literal_frac s = Some (fp, s3) -> (List.length s3 <= List.length s)%nat.
Proof.
  unfold literal_frac. destruct s as [|c r]; [intros H; injection H as _ <-; lia|].
  destruct (N.eqb c 46); [|intros H; injection H as _ <-; lia].
  destruct (take_digits r) as [[|d ds] r'] eqn:Ht; [discriminate|].
  intros H. injection H as _ <-. apply take_digits_length in Ht. simpl in *. lia.
Qed.

Lemma literal_exp_length (s : jsstring) (e : Z) (s4 : jsstring) :
  literal_exp s = Some (e, s4) -> (List.length s4 <= List.length s)%nat.
Proof.
  unfold literal_exp. destruct s as [|c r]; [intros H; injection H as _ <-; lia|].
  destruct (N.eqb c 69 || N.eqb c 101); [|intros H; injection H as _ <-; lia].
  destruct (literal_exp_sign r) as [negative r1] eqn:Hs.
  assert (Hr : (List.length r1 <= List.length r)%nat).
  { unfold literal_exp_sign in Hs.
    destruct r as [|g r0]; [injection Hs as _ <-; lia|].
    destruct (N.eqb g 43); [injection Hs as _ <-; simpl; lia|].
    destruct (N.eqb g 45); injection Hs as _ <-; simpl; lia. }
  destruct (take_digits r1) as [[|d ds] r2] eqn:Ht; [discriminate|].
  intros H. injection H as _ <-. apply take_digits_length in Ht. simpl in *. lia.
Qed.

Lemma number_literal_length (s : jsstring) (q : Q) (r : jsstring) :
  number_literal s = Some (q, r) -> (List.length r < List.length s)%nat.
Proof.
  unfold number_literal.
  destruct (literal_sign s) as [negative s1] eqn:H1.
  destruct (literal_int s1) as [[ip s2]|] eqn:H2; [|discriminate].
  destruct (literal_frac s2) as [[fp s3]|] eqn:H3; [|discriminate].
  destruct (literal_exp s3) as [[e s4]|] eqn:H4; [|discriminate].
  intros H. injection H as _ <-.
  apply literal_sign_length in H1. apply literal_int_length in H2.
  apply literal_frac_length in H3. apply literal_exp_length in H4. lia.
Qed.

(** What a parser leaves is shorter than what it was given. *)
Lemma parse_shorter (n : nat) :
  (forall s v r, parse_value n s = Done v r ->
                 (List.length r < List.length s)%nat)
  /\ (forall s acc v r, parse_elements n s acc = Done v r ->
                        (List.length r < List.length s)%nat)
  /\ (forall s acc v r, parse_members n s acc = Done v r ->
                        (List.length r < List.length s)%nat).
Proof.
  induction n as [|n [IHv [IHe IHm]]]; [repeat split; discriminate|].
  split; [|split].
  - intros s v r. cbn [parse_value].
    pose proof (skip_ws_length s) as Hs.
    destruct (skip_ws s) as [|c r0]; [discriminate|]. simpl in Hs.
    destruct (N.eqb c 123).
    { pose proof (skip_ws_length r0) as Hr0.
      destruct (skip_ws r0) as [|d r']; [discriminate|]. simpl in Hr0.
      destruct (N.eqb d 125); intros H.
      - injection H as _ <-. lia.
      - apply IHm in H. lia. }
    destruct (N.eqb c 91).
    { pose proof (skip_ws_length r0) as Hr0.
      destruct (skip_ws r0) as [|d r']; [discriminate|]. simpl in Hr0.
      destruct (N.eqb d 93); intros H.
      - injection H as _ <-. lia.
      - apply IHe in H. lia. }
    destruct (N.eqb c QUOTE).
    { destruct (string_chars r0 []) as [[str r']|] eqn:Hstr; [|discriminate].
      intros H. injection H as _ <-. apply string_chars_length in Hstr. lia. }
    destruct (startsWith (c :: r0) (js "true")).
    { intros H. assert (Hr : r = skipn 4 (c :: r0)) by congruence.
      rewrite Hr, length_skipn. simpl. lia. }
    destruct (startsWith (c :: r0) (js "false")).
    { intros H. assert (Hr : r = skipn 5 (c :: r0)) by congruence.
      rewrite Hr, length_skipn. simpl. lia. }
    destruct (startsWith (c :: r0) (js "null")).
    { intros H. assert (Hr : r = skipn 4 (c :: r0)) by congruence.
      rewrite Hr, length_skipn. simpl. lia. }
    destruct (number_literal (c :: r0)) as [[q r']|] eqn:Hn; [|discriminate].
    intros H. injection H as _ <-. apply number_literal_length in Hn.
    simpl in Hn. lia.
  - intros s acc v r. cbn [parse_elements].
    destruct (parse_value n s) as [v0 r0| |] eqn:Hv; try discriminate.
    apply IHv in Hv. pose proof (skip_ws_length r0) as Hr0.
    destruct (skip_ws r0) as [|c r']; [discriminate|]. simpl in Hr0.
    destruct (N.eqb c 44); [intros H; apply IHe in H; lia|].
    destruct (N.eqb c 93); [|discriminate].
    intros H. injection H as _ <-. lia.
  - intros s acc v r. cbn [parse_members].
    pose proof (skip_ws_length s) as Hs.
    destruct (skip_ws s) as [|q r0]; [discriminate|]. simpl in Hs.
    destruct (N.eqb q QUOTE); [|discriminate].
    destruct (string_chars r0 []) as [[key r1]|] eqn:Hstr; [|discriminate].
    apply string_chars_length in Hstr.
    pose proof (skip_ws_length r1) as Hr1.
    destruct (skip_ws r1) as [|c r2]; [discriminate|]. simpl in Hr1.
    destruct (N.eqb c 58); [|discriminate].
    destruct (parse_value n r2) as [v0 r3| |] eqn:Hv; try discriminate.
    apply IHv in Hv. pose proof (skip_ws_length r3) as Hr3.
    destruct (skip_ws r3) as [|d r4]; [discriminate|]. simpl in Hr3.
    destruct (N.eqb d 44); [intros H; apply IHm in H; lia|].
    destruct (N.eqb d 125); [|discriminate].
    intros H. injection H as _ <-. lia.
Qed.

(** With two units of fuel for each code unit no parser runs out. *)
Lemma parse_enough (n : nat) :
  (forall s, (2 * List.length s < n)%nat -> parse_value n s <> OutOfFuel)
  /\ (forall s acc, (2 * List.length s + 1 < n)%nat ->
                    parse_elements n s acc <> OutOfFuel)
  /\ (forall s acc, (2 * List.length s + 1 < n)%nat ->
                    parse_members n s acc <> OutOfFuel).
Proof.
  induction n as [|n [IHv [IHe IHm]]]; [repeat split; intros; lia|].
  split; [|split].
  - intros s Hn. cbn [parse_value].
    pose proof (skip_ws_length s) as Hs.
    destruct (skip_ws s) as [|c r0]; [discriminate|]. simpl in Hs.
    destruct (N.eqb c 123).
    { destruct (skip_ws r0) as [|d r']; [discriminate|].
      destruct (N.eqb d 125); [discriminate|]. apply IHm. lia. }
    destruct (N.eqb c 91).
    { destruct (skip_ws r0) as [|d r']; [discriminate|].
      destruct (N.eqb d 93); [discriminate|]. apply IHe. lia. }
    destruct (N.eqb c QUOTE).
    { destruct (string_chars r0 []) as [[str r']|]; discriminate. }
    repeat match goal with
           | |- (if ?b then _ else _) <> _ => destruct b; [discriminate|]
           end.
    destruct (number_literal (c :: r0)) as [[q r']|]; discriminate.
  - intros s acc Hn. cbn [parse_elements].
    destruct (parse_value n s) as [v0 r0| |] eqn:Hv; [|discriminate|].
    + apply (proj1 (parse_shorter n)) in Hv.
      pose proof (skip_ws_length r0) as Hr0.
      destruct (skip_ws r0) as [|c r']; [discriminate|]. simpl in Hr0.
      destruct (N.eqb c 44); [apply IHe; lia|].
      destruct (N.eqb c 93); discriminate.
    + exfalso. revert Hv. apply IHv. lia.
  - intros s acc Hn. cbn [parse_members].
    pose proof (skip_ws_length s) as Hs.
    destruct (skip_ws s) as [|q r0]; [discriminate|]. simpl in Hs.
    destruct (N.eqb q QUOTE); [|discriminate].
    destruct (string_chars r0 []) as [[key r1]|] eqn:Hstr; [|discriminate].
    apply string_chars_length in Hstr.
    pose proof (skip_ws_length r1) as Hr1.
    destruct (skip_ws r1) as [|c r2]; [discriminate|]. simpl in Hr1.
    destruct (N.eqb c 58); [|discriminate].
    destruct (parse_value n r2) as [v0 r3| |] eqn:Hv; [|discriminate|].
    + apply (proj1 (parse_shorter n)) in Hv.
      pose proof (skip_ws_length r3) as Hr3.
      destruct (skip_ws r3) as [|d r4]; [discriminate|]. simpl in Hr3.
      destruct (N.eqb d 44); [apply IHm; lia|].
      destruct (N.eqb d 125); discriminate.
    + exfalso. revert Hv. apply IHv. lia.
Qed.

(** [JSON_parse] never gives up for lack of fuel: [None] is a text that the
    grammar rejects. *)
Lemma JSON_parse_fuel (text : jsstring) :
  parse_value (2 * List.length text + 2) text <> OutOfFuel.
Proof. apply (proj1 (parse_enough _)). lia. Qed.

(** ** From the segments to the order check *)

Lemma loop_passes (segments : list jsstring) :
  Forall trimmed segments -> Forall classifiable segments ->
  NoDup (List.map keywordOf segments) ->
  exists ps, parseSegments segments 0 [] = Ok ps.
Proof.
  intros Htr Hc Hnd. apply parseSegments_complete; [assumption | | reflexivity].
  replace (List.map (fun s => keywordOf (trim s)) segments)
    with (List.map keywordOf segments); [assumption|].
  apply map_ext_in. intros s Hs. rewrite Forall_forall in Htr.
  now rewrite (Htr s Hs).
Qed.

Lemma wellSpaced_split (reqline : jsstring) :
  wellSpaced reqline = true ->
  splitByPipe reqline =
  if (List.length (piecesOf reqline) <? 2)%nat then Throw MissingSections
  else Ok (piecesOf reqline).
Proof.
  unfold wellSpaced, splitByPipe, piecesOf.
  destruct (splitLoop None reqline [] []) as [[segs current]|];
    [reflexivity | discriminate].
Qed.

Section Order.

Variable E : jsstring -> jsstring.

(** With segments that pass the loop, an error of the order check is the
    error of [parseReqline]. *)
Lemma parseReqline_order_error (reqline : jsstring) (segments : list jsstring)
    (e : Error) :
  splitByPipe reqline = Ok segments ->
  Forall classifiable segments ->
  NoDup (List.map keywordOf segments) ->
  validateKeywordOrder segments = Throw e ->
  parseReqline E reqline = Throw e.
Proof.
  intros Hs Hc Hnd Ho. unfold parseReqline.
  pose proof (splitByPipe_Ok _ _ Hs) as [_ [Htr Hne]].
  destruct (trim reqline); [contradiction|].
  rewrite Hs. cbn [bind].
  destruct (loop_passes _ Htr Hc Hnd) as [ps ->]. cbn [bind].
  now rewrite Ho.
Qed.

Lemma order_missing_url (s0 s1 : jsstring) (rest : list jsstring) :
  keywordOf s0 = js "HTTP" -> In (keywordOf s1) ALL_KEYWORDS ->
  keywordOf s1 <> js "URL" ->
  validateKeywordOrder (s0 :: s1 :: rest) = Throw (MissingRequired (js "URL")).
Proof.
  unfold keywordOf, validateKeywordOrder. intros H0 Hin H1.
  rewrite H0. cbn [str_eqb negb]. rewrite str_eqb_refl. cbn [negb].
  apply str_eqb_neq in H1. rewrite H1. cbn [negb].
  apply includes_str_In in Hin. now rewrite Hin.
Qed.

End Order.

(** The errors of a trimmed segment whose first word is not a recognized
    keyword. *)
Lemma unrecognized_segment_error (segment : jsstring) (index : nat) (e : Error) :
  trimmed segment ->
  ~ In (keywordOf segment) ALL_KEYWORDS ->
  parseSegment segment index = Throw e ->
  e = EmptySegment \/ e = MissingSpace \/ e = KeywordCase
  \/ e = InvalidKeyword (keywordOf segment).
Proof.
  intros Htr Hk. unfold parseSegment. rewrite Htr.
  destruct segment as [|c t] eqn:Hseg; [intros H; injection H as <-; auto|].
  rewrite <- Hseg in *.
  destruct (firstSpace segment) as [i|] eqn:Hsp;
    [|intros H; injection H as <-; auto].
  unfold substring_to.
  assert (Hkw : firstn i segment = keywordOf segment).
  { unfold keywordOf, firstWord. symmetry. now apply firstWord_firstSpace. }
  rewrite Hkw.
  destruct (includes_str ALL_KEYWORDS (keywordOf segment)) eqn:Hin.
  { apply includes_str_In in Hin. contradiction. }
  cbn [negb]. destruct (lowercaseKeyword (keywordOf segment)); cbn [bind];
    intros H; injection H as <-; auto.
Qed.

(** * The claims *)

Section Claims.

Variable E : jsstring -> jsstring.

(** C3.  [parseReqline] applied to
    [HTTP GET | URL https://a.com/x | QUERY {"k":1}] returns the record with
    method GET, url https://a.com/x, empty headers, query [{k: 1}] and empty
    body. *)
Theorem parse_query_example :
  parseReqline E
    (js "HTTP GET | URL https://a.com/x | QUERY {" ++ quoted "k" ++ js ":1}")
  = Ok {| method := Some (js "GET");
          url := Some (js "https://a.com/x");
          headers := JObject [];
          query := JObject [(js "k", JNumber 1%Q)];
          body := JObject [] |}.
Proof. vm_compute. reflexivity. Qed.

(** C2, on the code.  Two spaces before a pipe, or two after it, pass
    [splitByPipe]: the loop looks at one unit on each side of the pipe, and
    [trim] removes the second space.  Both inputs parse. *)
Theorem double_space_around_pipe_accepted :
  parseReqline E (js "HTTP GET  | URL https://example.com")
  = Ok {| method := Some (js "GET"); url := Some (js "https://example.com");
          headers := JObject []; query := JObject []; body := JObject [] |}
  /\
  parseReqline E (js "HTTP GET |  URL https://example.com")
  = Ok {| method := Some (js "GET"); url := Some (js "https://example.com");
          headers := JObject []; query := JObject []; body := JObject [] |}.
Proof. split; vm_compute; reflexivity. Qed.

(** A pipe that has no space before it, or none after it, is rejected:
    for the first pipe of an input, whatever follows. *)
Lemma first_pipe_without_space (pre post : jsstring) :
  ~ In PIPE pre ->
  last (List.map Some pre) None <> Some SPACE \/ hd_error post <> Some SPACE ->
  parseReqline E (pre ++ PIPE :: post) = Throw PipeSpacing.
Proof.
  intros Hp Hsp. unfold parseReqline.
  destruct (trim (pre ++ PIPE :: post)) eqn:Ht.
  { rewrite trim_nil in Ht.
    assert (Hin : In PIPE (pre ++ PIPE :: post))
      by (apply in_or_app; right; now left).
    apply Ht in Hin. discriminate. }
  unfold splitByPipe. rewrite splitLoop_before_pipe by assumption.
  cbn [splitLoop]. rewrite N.eqb_refl.
  destruct (last (List.map Some pre) None) as [p|]; [|reflexivity].
  destruct (N.eqb p SPACE) eqn:Hpe; [|reflexivity].
  apply N.eqb_eq in Hpe. subst p.
  destruct post as [|d post']; [reflexivity|].
  destruct (N.eqb d SPACE) eqn:Hd; [|reflexivity].
  apply N.eqb_eq in Hd. subst d. simpl in Hsp.
  destruct Hsp as [H|H]; now elim H.
Qed.

(** C4.  When [parseReqline] succeeds, the headers, query and body of the
    result are objects, and each is the empty object when its keyword does
    not occur in the input. *)
Theorem sections_are_objects (reqline : jsstring) (r : ParsedRequest)
    (H : parseReqline E reqline = Ok r) :
  (exists h q b,
      headers r = JObject h /\ query r = JObject q /\ body r = JObject b)
  /\ (~ In (js "HEADERS") (keywordsIn reqline) -> headers r = JObject [])
  /\ (~ In (js "QUERY") (keywordsIn reqline) -> query r = JObject [])
  /\ (~ In (js "BODY") (keywordsIn reqline) -> body r = JObject []).
Proof.
  rewrite parseReqline_classified in H.
  destruct (classified reqline) as [ps|] eqn:Hc; cbn [bind] in H;
    [|discriminate].
  assert (Habsent : forall name,
             ~ In name (keywordsIn reqline) ->
             optionalSection E ps name = Ok (JObject [])).
  { intros name Hn. apply optionalSection_absent.
    destruct (obj_get name ps) eqn:Hg; [|reflexivity].
    elim Hn. apply (classified_keys _ _ _ Hc). congruence. }
  destruct (optionalSection_cases E reqline ps (js "HEADERS") Hc)
    as [[_ [h Hh]] | [[_ [_ Hh]] | [_ [_ [m Hh]]]]];
    rewrite Hh in H; cbn [bind] in H; try discriminate.
  destruct (optionalSection_cases E reqline ps (js "QUERY") Hc)
    as [[_ [q Hq]] | [[_ [_ Hq]] | [_ [_ [m Hq]]]]];
    rewrite Hq in H; cbn [bind] in H; try discriminate.
  destruct (optionalSection_cases E reqline ps (js "BODY") Hc)
    as [[_ [b Hb]] | [[_ [_ Hb]] | [_ [_ [m Hb]]]]];
    rewrite Hb in H; cbn [bind] in H; try discriminate.
  injection H as <-. cbn [headers query body].
  split; [now exists h, q, b|].
  repeat split; intros Hn; apply Habsent in Hn; congruence.
Qed.

(** C5, as amended.  [parseReqline] fails with "Invalid JSON format in S
    section" when S is the first section, in the order HEADERS, QUERY, BODY,
    whose text fails to decode or decodes to something other than an object,
    the message of a decoding error not containing 'JSON format'; and it
    fails with that error for no other reason. *)
Theorem section_error_first_unaccepted (reqline name : jsstring) :
  (firstUnaccepted reqline = Some name ->
   rethrownAt E reqline name = false ->
   parseReqline E reqline = Throw (InvalidJson name))
  /\
  (parseReqline E reqline = Throw (InvalidJson name) ->
   firstUnaccepted reqline = Some name).
Proof.
  rewrite parseReqline_classified.
  unfold firstUnaccepted, OPTIONAL_KEYWORDS. cbn [find].
  destruct (classified reqline) as [ps|e0] eqn:Hc; cbn [bind].
  2:{ unfold unaccepted, sectionText. rewrite Hc. split; [discriminate|].
      intros H. injection H as ->. apply classified_Throw in Hc.
      discriminate. }
  destruct (optionalSection_cases E reqline ps (js "HEADERS") Hc)
    as [[Hu [h Hh]] | [[Hu [Hr Hh]] | [Hu [Hr [m Hh]]]]];
    rewrite Hu, Hh; cbn [bind].
  2:{ split; [congruence|]. intros H. now injection H as <-. }
  2:{ split; [|discriminate]. intros H. injection H as <-. congruence. }
  destruct (optionalSection_cases E reqline ps (js "QUERY") Hc)
    as [[Hu' [q Hq]] | [[Hu' [Hr Hq]] | [Hu' [Hr [m Hq]]]]];
    rewrite Hu', Hq; cbn [bind].
  2:{ split; [congruence|]. intros H. now injection H as <-. }
  2:{ split; [|discriminate]. intros H. injection H as <-. congruence. }
  destruct (optionalSection_cases E reqline ps (js "BODY") Hc)
    as [[Hu'' [b Hb]] | [[Hu'' [Hr Hb]] | [Hu'' [Hr [m Hb]]]]];
    rewrite Hu'', Hb; cbn [bind].
  - split; discriminate.
  - split; [congruence|]. intros H. now injection H as <-.
  - split; [|discriminate]. intros H. injection H as <-. congruence.
Qed.

(** C7, as amended.  [parseSegment] checks the keyword first.  When the
    text after the first space begins with a space, a segment with a
    recognized keyword fails with the multiple-spaces error; with any other
    keyword it fails with the casing error or the invalid-keyword error. *)
Theorem multiple_spaces_after_keyword (segment : jsstring) (index : nat)
    (keyword value : jsstring)
    (Hcand : candidate segment = Some (keyword, value))
    (Hspace : startsWith value [SPACE] = true) :
  parseSegment segment index =
  Throw (if includes_str ALL_KEYWORDS keyword then MultipleSpaces
         else if lowercaseKeyword keyword then KeywordCase
         else InvalidKeyword keyword).
Proof.
  unfold candidate in Hcand. unfold parseSegment.
  destruct (trim segment) as [|c t] eqn:Ht; [discriminate|].
  destruct (firstSpace (c :: t)) as [i|]; [|discriminate].
  injection Hcand as <- <-.
  destruct (includes_str ALL_KEYWORDS (substring_to i (c :: t)));
    cbn [negb bind].
  - rewrite Hspace. reflexivity.
  - destruct (lowercaseKeyword _); reflexivity.
Qed.

(** C8, as amended.  The URL-empty check cannot fire: the text after the
    first space of a trimmed segment never trims to nothing.  Neither
    [parseSegment] nor [parseReqline] fails with "URL cannot be empty", and a
    URL keyword with nothing after it fails with "Missing space after
    keyword". *)
Theorem url_empty_never_thrown (reqline segment : jsstring) (index : nat) :
  parseSegment segment index <> Throw UrlEmpty
  /\ parseReqline E reqline <> Throw UrlEmpty
  /\ parseReqline E (js "HTTP GET | URL ") = Throw MissingSpace.
Proof.
  split; [|split].
  - intros H. apply parseSegment_Throw in H. discriminate.
  - intros H. apply parseReqline_Throw in H. discriminate.
  - vm_compute. reflexivity.
Qed.

(** C10, as amended.  [parseReqline] never fails with "URL keyword must be
    second".  When the keyword of the second segment is not a recognized
    one, the loop over the segments fails before [validateKeywordOrder]
    runs, and its error is the error of [parseReqline]: the error of the
    first segment, or, when the first segment classifies, the error of the
    second, which is the empty-segment, the missing-space, the
    keyword-casing or the invalid-keyword error. *)
Theorem url_second_never_thrown (reqline : jsstring) :
  parseReqline E reqline <> Throw UrlSecond
  /\ (forall segments,
         splitByPipe reqline = Ok segments ->
         ~ In (keywordOf (nth 1 segments [])) ALL_KEYWORDS ->
         (exists e,
             parseSegment (nth 0 segments []) 0 = Throw e
             /\ parseSegments segments 0 [] = Throw e
             /\ parseReqline E reqline = Throw e)
         \/ (classifiable (nth 0 segments [])
             /\ exists e,
                  parseSegment (nth 1 segments []) 1 = Throw e
                  /\ parseSegments segments 0 [] = Throw e
                  /\ parseReqline E reqline = Throw e
                  /\ (e = EmptySegment \/ e = MissingSpace \/ e = KeywordCase
                      \/ e = InvalidKeyword (keywordOf (nth 1 segments []))))).
Proof.
  split.
  - intros H. apply parseReqline_Throw in H. discriminate.
  - intros segments Hs Hk.
    pose proof (splitByPipe_Ok _ _ Hs) as [Hlen [Htr Hne]].
    assert (Hfail : forall e, parseSegments segments 0 [] = Throw e ->
                              parseReqline E reqline = Throw e).
    { intros e He. unfold parseReqline.
      destruct (trim reqline); [contradiction|].
      rewrite Hs. cbn [bind]. now rewrite He. }
    destruct segments as [|s0 [|s1 rest]]; simpl in Hlen; try lia.
    cbn [nth] in *.
    assert (Htr1 : trimmed s1).
    { inversion Htr as [|? ? _ Htr']; now inversion Htr'. }
    destruct (parseSegment s0 0) as [[k0 v0]|e0] eqn:H0.
    2:{ left. exists e0. split; [reflexivity|].
        assert (He : parseSegments (s0 :: s1 :: rest) 0 [] = Throw e0)
          by (cbn [parseSegments]; now rewrite H0).
        auto. }
    right. split; [now exists k0, v0|].
    destruct (parseSegment s1 1) as [[k1 v1]|e1] eqn:H1.
    { elim Hk. apply classifiable_keyword; [assumption|].
      exists k1, v1. now rewrite (parseSegment_index s1 0 1). }
    exists e1. split; [reflexivity|].
    assert (He : parseSegments (s0 :: s1 :: rest) 0 [] = Throw e1).
    { cbn [parseSegments]. rewrite H0. cbn [bind obj_get truthy_string].
      now rewrite H1. }
    split; [assumption|]. split; [auto|].
    now apply (unrecognized_segment_error s1 1).
Qed.

(** C1, as amended.  When the segments all classify, no keyword occurs
    twice, the keyword of the first segment is HTTP and the keyword of the
    second is a recognized keyword other than URL, [parseReqline] fails with
    "Missing required URL keyword". *)
Theorem url_missing_not_wrong_order (reqline : jsstring)
    (segments : list jsstring)
    (Hsplit : splitByPipe reqline = Ok segments)
    (Hclass : Forall classifiable segments)
    (Hnodup : NoDup (List.map keywordOf segments))
    (Hfirst : keywordOf (nth 0 segments []) = js "HTTP")
    (Hknown : In (keywordOf (nth 1 segments [])) ALL_KEYWORDS)
    (Hother : keywordOf (nth 1 segments []) <> js "URL") :
  parseReqline E reqline = Throw (MissingRequired (js "URL")).
Proof.
  apply (parseReqline_order_error E _ _ _ Hsplit Hclass Hnodup).
  apply splitByPipe_Ok in Hsplit as [Hlen _].
  destruct segments as [|s0 [|s1 rest]]; simpl in Hlen; try lia.
  now apply order_missing_url.
Qed.

(** C6, as amended.  Take an input that is not blank and whose pipes are
    well spaced.  With fewer than two segments and the HTTP keyword there,
    it fails with the generic "Missing required HTTP and URL sections".
    With two or more segments that all classify and no keyword twice: when
    HTTP is absent it fails with "HTTP keyword must be first", and when the
    first keyword is HTTP and URL is absent it fails with "Missing required
    URL keyword". *)
Theorem missing_keyword_errors (reqline : jsstring)
    (Hne : trim reqline <> [])
    (Hws : wellSpaced reqline = true) :
  ((List.length (piecesOf reqline) < 2)%nat ->
   In (js "HTTP") (keywordsIn reqline) ->
   parseReqline E reqline = Throw MissingSections)
  /\
  ((2 <= List.length (piecesOf reqline))%nat ->
   Forall classifiable (piecesOf reqline) ->
   NoDup (keywordsIn reqline) ->
   (~ In (js "HTTP") (keywordsIn reqline) ->
    parseReqline E reqline = Throw HttpFirst)
   /\
   (keywordOf (nth 0 (piecesOf reqline) []) = js "HTTP" ->
    ~ In (js "URL") (keywordsIn reqline) ->
    parseReqline E reqline = Throw (MissingRequired (js "URL")))).
Proof.
  pose proof (wellSpaced_split _ Hws) as Hsplit.
  split.
  - intros Hlen _. apply Nat.ltb_lt in Hlen. rewrite Hlen in Hsplit.
    unfold parseReqline. destruct (trim reqline); [contradiction|].
    now rewrite Hsplit.
  - intros Hlen Hc Hnd.
    assert (Hge : (List.length (piecesOf reqline) <? 2)%nat = false)
      by now apply Nat.ltb_ge.
    rewrite Hge in Hsplit. unfold keywordsIn in *.
    pose proof (splitByPipe_Ok _ _ Hsplit) as [_ [Htr _]].
    destruct (piecesOf reqline) as [|s0 [|s1 rest]] eqn:Hp;
      simpl in Hlen; try lia.
    split.
    + intros Habs.
      apply (parseReqline_order_error E _ _ _ Hsplit Hc Hnd).
      unfold validateKeywordOrder.
      destruct (str_eqb (firstWord s0) (js "HTTP")) eqn:H0; [|reflexivity].
      apply str_eqb_eq in H0. elim Habs. left. exact H0.
    + intros Hfirst Habs.
      apply (parseReqline_order_error E _ _ _ Hsplit Hc Hnd).
      apply order_missing_url; [exact Hfirst | |].
      * apply classifiable_keyword.
        -- inversion Htr as [|? ? _ Htr']; now inversion Htr'.
        -- inversion Hc as [|? ? _ Hc']; now inversion Hc'.
      * intros Hu. apply Habs. right. left. exact Hu.
Qed.

End Claims.

(** ** The request service *)

(** For a POST with a body, the headers of the configuration: the default
    is added unless one of the two spellings that the source reads has a
    truthy value. *)
Lemma axiosConfigOf_headers (r : Request) (fullUrl : jsstring) :
  req_method r = js "POST" -> req_body r <> [] ->
  cfg_headers (axiosConfigOf r fullUrl) =
  if truthy_prop (obj_get (js "Content-Type") (req_headers r))
     || truthy_prop (obj_get (js "content-type") (req_headers r))
  then req_headers r
  else obj_set (js "Content-Type") (JString (js "application/json"))
               (req_headers r).
Proof.
  intros Hm Hb. unfold axiosConfigOf. rewrite Hm.
  change (str_eqb (js "POST") (js "POST")) with true.
  destruct (req_body r) as [|p body']; [contradiction|].
  cbn [Object_keys List.map List.length Nat.ltb Nat.leb andb].
  destruct (truthy_prop (obj_get (js "Content-Type") (req_headers r)));
    destruct (truthy_prop (obj_get (js "content-type") (req_headers r)));
    reflexivity.
Qed.

(** C9, on the code.  A POST with a body whose headers hold the content
    type under the name CONTENT-TYPE: the source reads the names
    Content-Type and content-type only, finds neither, and adds the default
    next to the header that is there. *)
Theorem default_content_type_beside_other_casing :
  forall E : jsstring -> jsstring,
  exists p r,
    parseReqline E
      (js "HTTP POST | URL https://a.com | HEADERS {" ++ quoted "CONTENT-TYPE"
       ++ js ":" ++ quoted "text/plain" ++ js "} | BODY {" ++ quoted "a"
       ++ js ":1}") = Ok p
    /\ toRequest p = Some r
    /\ cfg_headers (axiosConfigOf r (req_url r)) =
       [(js "CONTENT-TYPE", JString (js "text/plain"));
        (js "Content-Type", JString (js "application/json"))].
Proof.
  intros E. eexists. eexists. split; [vm_compute; reflexivity|].
  split; vm_compute; reflexivity.
Qed.

(** ** Closed examples *)

(** C1: a keyword that occurs twice is reported before the order is
    looked at. *)
Lemma duplicate_reported_before_order :
  exists segments,
    splitByPipe (js "HTTP GET | QUERY {} | QUERY {}") = Ok segments
    /\ Forall classifiable segments
    /\ keywordOf (nth 0 segments []) = js "HTTP"
    /\ In (keywordOf (nth 1 segments [])) ALL_KEYWORDS
    /\ keywordOf (nth 1 segments []) <> js "URL"
    /\ parseReqline terseEngine (js "HTTP GET | QUERY {} | QUERY {}")
       = Throw (DuplicateKeyword (js "QUERY")).
Proof.
  exists [js "HTTP GET"; js "QUERY {}"; js "QUERY {}"].
  split; [vm_compute; reflexivity|].
  split.
  { repeat constructor; eexists; eexists; vm_compute; reflexivity. }
  split; [vm_compute; reflexivity|].
  split; [vm_compute; auto 10|].
  split; [vm_compute; discriminate | vm_compute; reflexivity].
Qed.

(** C5: a QUERY that holds an array, in an input that fails with the
    error of another section. *)
Lemma section_error_names_headers_first :
  sectionText (js "HTTP GET | URL https://a.com | QUERY [] | HEADERS 5")
              (js "QUERY") = Some (js "[]")
  /\ JSON_parse (js "[]") = Some (JArray [])
  /\ parseReqline terseEngine
       (js "HTTP GET | URL https://a.com | QUERY [] | HEADERS 5")
     = Throw (InvalidJson (js "HEADERS")).
Proof. repeat split; vm_compute; reflexivity. Qed.

(** C5: with an engine whose message quotes the text, a text that holds
    'JSON format' and fails to decode leaves [parseReqline] with the
    engine's error. *)
Lemma quoted_text_passes_the_catch :
  parseReqline quotingEngine
    (js "HTTP GET | URL https://a.com | HEADERS JSON format")
  = Throw (NativeSyntaxError
             (js "Unexpected token 'J', " ++ quoted "JSON format"
              ++ js " is not valid JSON")).
Proof. vm_compute. reflexivity. Qed.

(** C6: HTTP is there and URL is not, and the error is the generic one. *)
Lemma single_segment_generic_error :
  In (js "HTTP") (keywordsIn (js "HTTP GET"))
  /\ ~ In (js "URL") (keywordsIn (js "HTTP GET"))
  /\ parseReqline terseEngine (js "HTTP GET") = Throw MissingSections.
Proof.
  split; [vm_compute; auto|].
  split; [vm_compute; intros [H|[]]; discriminate | vm_compute; reflexivity].
Qed.

(** C7: two spaces after a keyword in lower case give the casing error. *)
Lemma keyword_checked_before_spaces :
  candidate (js "http  GET") = Some (js "http", js " GET")
  /\ startsWith (js " GET") [SPACE] = true
  /\ parseSegment (js "http  GET") 0 = Throw KeywordCase
  /\ parseReqline terseEngine (js "http  GET | URL https://a.com")
     = Throw KeywordCase.
Proof. repeat split; vm_compute; reflexivity. Qed.

(** C8: no input fails with "URL cannot be empty". *)
Lemma url_empty_unreachable :
  ~ exists (E : jsstring -> jsstring) (reqline : jsstring),
      parseReqline E reqline = Throw UrlEmpty.
Proof.
  intros [E [reqline H]]. apply parseReqline_Throw in H. discriminate.
Qed.

(** C10: a second segment that is empty, and a first segment that fails
    with an error of its own; in both the keyword of the second segment is
    not a recognized one and the error is none of the three. *)
Lemma second_keyword_other_errors :
  (exists segments,
      splitByPipe (js "HTTP GET |  | URL https://a.com") = Ok segments
      /\ ~ In (keywordOf (nth 1 segments [])) ALL_KEYWORDS
      /\ parseReqline terseEngine (js "HTTP GET |  | URL https://a.com")
         = Throw EmptySegment)
  /\
  (exists segments,
      splitByPipe (js "HTTP get | foo bar") = Ok segments
      /\ ~ In (keywordOf (nth 1 segments [])) ALL_KEYWORDS
      /\ parseReqline terseEngine (js "HTTP get | foo bar") = Throw MethodCase).
Proof.
  split.
  - exists [js "HTTP GET"; []; js "URL https://a.com"].
    split; [vm_compute; reflexivity|].
    split; [vm_compute; intuition discriminate | vm_compute; reflexivity].
  - exists [js "HTTP get"; js "foo bar"].
    split; [vm_compute; reflexivity|].
    split; [vm_compute; intuition discriminate | vm_compute; reflexivity].
Qed.

(** "Missing required HTTP keyword" is not an error of [parseReqline]. *)
Lemma missing_http_never_thrown (E : jsstring -> jsstring) (reqline : jsstring) :
  parseReqline E reqline <> Throw (MissingRequired (js "HTTP")).
Proof. intros H. apply parseReqline_Throw in H. discriminate. Qed.

(** ** Instances *)

Ltac by_evaluation := vm_compute; reflexivity.

Lemma url_missing_not_wrong_order_witness :
  parseReqline terseEngine
    (js "HTTP GET | HEADERS {" ++ quoted "test" ++ js ": " ++ quoted "value"
     ++ js "} | URL https://example.com")
  = Throw (MissingRequired (js "URL")).
Proof.
  apply (url_missing_not_wrong_order terseEngine _
           [js "HTTP GET";
            js "HEADERS {" ++ quoted "test" ++ js ": " ++ quoted "value" ++ js "}";
            js "URL https://example.com"]).
  - by_evaluation.
  - repeat constructor; eexists; eexists; by_evaluation.
  - vm_compute. repeat constructor; simpl; intuition discriminate.
  - by_evaluation.
  - vm_compute. auto 10.
  - vm_compute. discriminate.
Defined.

Lemma sections_are_objects_witness :
  let reqline :=
    js "HTTP GET | URL https://a.com/x | QUERY {" ++ quoted "k" ++ js ":1}" in
  let r :=
    {| method := Some (js "GET"); url := Some (js "https://a.com/x");
       headers := JObject []; query := JObject [(js "k", JNumber 1%Q)];
       body := JObject [] |} in
  parseReqline terseEngine reqline = Ok r
  /\ (exists h q b,
         headers r = JObject h /\ query r = JObject q /\ body r = JObject b)
  /\ (~ In (js "HEADERS") (keywordsIn reqline) -> headers r = JObject [])
  /\ (~ In (js "QUERY") (keywordsIn reqline) -> query r = JObject [])
  /\ (~ In (js "BODY") (keywordsIn reqline) -> body r = JObject []).
Proof.
  intros reqline r.
  assert (H : parseReqline terseEngine reqline = Ok r) by by_evaluation.
  split; [exact H|].
  exact (sections_are_objects terseEngine reqline r H).
Defined.

Lemma section_error_first_unaccepted_witness :
  parseReqline terseEngine (js "HTTP GET | URL https://example.com | QUERY null")
  = Throw (InvalidJson (js "QUERY")).
Proof.
  apply (proj1 (section_error_first_unaccepted terseEngine _ _));
    by_evaluation.
Defined.

Lemma missing_keyword_errors_witness :
  parseReqline terseEngine (js "HTTP GET") = Throw MissingSections
  /\ parseReqline terseEngine (js "URL https://example.com | QUERY {}")
     = Throw HttpFirst
  /\ parseReqline terseEngine (js "HTTP GET | QUERY {}")
     = Throw (MissingRequired (js "URL")).
Proof.
  split; [|split].
  - apply (proj1 (missing_keyword_errors terseEngine (js "HTTP GET")
                    ltac:(vm_compute; discriminate) eq_refl)).
    + vm_compute. lia.
    + vm_compute. auto.
  - apply (proj2 (missing_keyword_errors terseEngine
                    (js "URL https://example.com | QUERY {}")
                    ltac:(vm_compute; discriminate) eq_refl)).
    + vm_compute. lia.
    + repeat constructor; eexists; eexists; by_evaluation.
    + vm_compute. repeat constructor; simpl; intuition discriminate.
    + vm_compute. intuition discriminate.
  - apply (proj2 (missing_keyword_errors terseEngine
                    (js "HTTP GET | QUERY {}")
                    ltac:(vm_compute; discriminate) eq_refl)).
    + vm_compute. lia.
    + repeat constructor; eexists; eexists; by_evaluation.
    + vm_compute. repeat constructor; simpl; intuition discriminate.
    + by_evaluation.
    + vm_compute. intuition discriminate.
Defined.

Lemma multiple_spaces_after_keyword_witness :
  parseSegment (js "URL  https://example.com") 1 = Throw MultipleSpaces.
Proof.
  exact (multiple_spaces_after_keyword (js "URL  https://example.com") 1
           (js "URL") (js " https://example.com") eq_refl eq_refl).
Defined.

Lemma url_empty_never_thrown_witness :
  parseReqline terseEngine (js "HTTP GET | URL ") = Throw MissingSpace.
Proof.
  exact (proj2 (proj2 (url_empty_never_thrown terseEngine [] [] 0))).
Defined.

Lemma url_second_never_thrown_witness :
  parseReqline terseEngine (js "HTTP GET | FOO x") <> Throw UrlSecond
  /\ parseReqline terseEngine (js "HTTP GET | FOO x")
     = Throw (InvalidKeyword (js "FOO")).
Proof.
  destruct (url_second_never_thrown terseEngine (js "HTTP GET | FOO x"))
    as [Hnever Hsecond].
  split; [exact Hnever|].
  destruct (Hsecond [js "HTTP GET"; js "FOO x"])
    as [[e [H0 _]] | [_ [e [H1 [_ [He _]]]]]].
  - by_evaluation.
  - vm_compute. intuition discriminate.
  - vm_compute in H0. discriminate H0.
  - vm_compute in H1. injection H1 as <-. exact He.
Defined.

(** * Further properties of the parser *)

(** ** Where an error of parseReqline comes from *)

Section Origin.

Variable E : jsstring -> jsstring.

Lemma optionalSection_Throw (reqline : jsstring)
    (ps : list (jsstring * jsstring)) (name : jsstring) (e : Error) :
  classified reqline = Ok ps ->
  optionalSection E ps name = Throw e ->
  e = InvalidJson name \/ exists m, e = NativeSyntaxError m.
Proof.
  intros Hc H.
  destruct (optionalSection_cases E reqline ps name Hc)
    as [[_ [o Ho]] | [[_ [_ Ho]] | [_ [_ [m Ho]]]]];
    rewrite Ho in H; [discriminate | |]; injection H as <-; eauto.
Qed.

(** The stage that threw. *)
Lemma parseReqline_origin (reqline : jsstring) (e : Error) :
  parseReqline E reqline = Throw e ->
  (e = EmptyReqline /\ trim reqline = [])
  \/ (trim reqline <> [] /\ splitByPipe reqline = Throw e)
  \/ (trim reqline <> [] /\
      exists segments,
        splitByPipe reqline = Ok segments
        /\ (parseSegments segments 0 [] = Throw e
            \/ exists ps, parseSegments segments 0 [] = Ok ps
                          /\ validateKeywordOrder segments = Throw e))
  \/ (exists ps, classified reqline = Ok ps
                 /\ ((exists n, e = InvalidJson n)
                     \/ exists m, e = NativeSyntaxError m)).
Proof.
  intros H.
  destruct (classified reqline) as [ps|e0] eqn:Hc.
  - right. right. right. exists ps. split; [reflexivity|].
    rewrite parseReqline_classified, Hc in H. cbn [bind] in H.
    destruct (optionalSection E ps (js "HEADERS")) as [h|e1] eqn:Hh;
      cbn [bind] in H.
    2:{ injection H as <-.
        destruct (optionalSection_Throw _ _ _ _ Hc Hh) as [->|Hm]; eauto. }
    destruct (optionalSection E ps (js "QUERY")) as [q|e2] eqn:Hq;
      cbn [bind] in H.
    2:{ injection H as <-.
        destruct (optionalSection_Throw _ _ _ _ Hc Hq) as [->|Hm]; eauto. }
    destruct (optionalSection E ps (js "BODY")) as [b|e3] eqn:Hb;
      cbn [bind] in H; [discriminate|].
    injection H as <-.
    destruct (optionalSection_Throw _ _ _ _ Hc Hb) as [->|Hm]; eauto.
  - rewrite parseReqline_classified, Hc in H. cbn [bind] in H.
    injection H as <-. unfold classified in Hc.
    destruct (trim reqline) as [|c t] eqn:Ht.
    { left. injection Hc as <-. auto. }
    right.
    assert (Hne : c :: t <> []) by discriminate.
    destruct (splitByPipe reqline) as [segments|e1] eqn:Hs; cbn [bind] in Hc.
    2:{ left. injection Hc as <-. auto. }
    right. left. split; [assumption|]. exists segments. split; [reflexivity|].
    destruct (parseSegments segments 0 []) as [ps|e2] eqn:Hl; cbn [bind] in Hc.
    2:{ left. congruence. }
    right. exists ps. split; [reflexivity|].
    destruct (validateKeywordOrder segments) as [[]|e3] eqn:Ho; cbn [bind] in Hc;
      [|congruence].
    apply splitByPipe_Ok in Hs as [_ [Htr _]].
    rewrite (validateRequiredKeywords_Ok _ _ Htr Hl Ho) in Hc. discriminate.
Qed.

End Origin.

(** ** The pipes *)

Lemma last_cons_map (c : codeunit) (pre : jsstring) (prev : option codeunit) :
  last (List.map Some (c :: pre)) prev = last (List.map Some pre) (Some c).
Proof. cbn [List.map]. apply last_cons. Qed.

Lemma splitLoop_misplaced (rest : jsstring) :
  forall prev current segments pre post,
    rest = pre ++ PIPE :: post ->
    last (List.map Some pre) prev <> Some SPACE \/ hd_error post <> Some SPACE ->
    splitLoop prev rest current segments = Throw PipeSpacing.
Proof.
  induction rest as [rest IH] using by_length.
  intros prev current segments pre post Hrest Hbad.
  destruct pre as [|c pre].
  - subst rest. cbn [app splitLoop]. rewrite N.eqb_refl. simpl in Hbad.
    destruct prev as [p|]; [|reflexivity].
    destruct (N.eqb p SPACE) eqn:Hp; [|reflexivity].
    destruct post as [|d post]; [reflexivity|].
    destruct (N.eqb d SPACE) eqn:Hd; [|reflexivity].
    apply N.eqb_eq in Hp, Hd. subst. destruct Hbad as [H|H]; now elim H.
  - subst rest. cbn [app splitLoop]. rewrite last_cons_map in Hbad.
    destruct (N.eqb c PIPE) eqn:Hc.
    + destruct prev as [p|]; [|reflexivity].
      destruct (N.eqb p SPACE); [|reflexivity].
      destruct pre as [|d pre]; cbn [app].
      * destruct (N.eqb PIPE SPACE) eqn:Hps; [discriminate | reflexivity].
      * destruct (N.eqb d SPACE); [|reflexivity].
        apply IH with (pre := pre) (post := post);
          [simpl; lia | reflexivity |].
        cbn [List.map] in Hbad. now rewrite last_cons in Hbad.
    + apply IH with (pre := pre) (post := post);
        [simpl; lia | reflexivity | exact Hbad].
Qed.

Lemma splitLoop_Throw_misplaced (rest : jsstring) :
  forall prev current segments e,
    splitLoop prev rest current segments = Throw e ->
    exists pre post,
      rest = pre ++ PIPE :: post
      /\ (last (List.map Some pre) prev <> Some SPACE
          \/ hd_error post <> Some SPACE).
Proof.
  induction rest as [rest IH] using by_length.
  intros prev current segments e H.
  destruct rest as [|c rest']; cbn [splitLoop] in H; [discriminate|].
  destruct (N.eqb c PIPE) eqn:Hc.
  - apply N.eqb_eq in Hc. subst c.
    assert (Hhere : forall post,
               rest' = post ->
               prev <> Some SPACE \/ hd_error post <> Some SPACE ->
               exists pre post0,
                 PIPE :: rest' = pre ++ PIPE :: post0
                 /\ (last (List.map Some pre) prev <> Some SPACE
                     \/ hd_error post0 <> Some SPACE)).
    { intros post <- Hb. exists [], rest'. split; [reflexivity | exact Hb]. }
    destruct prev as [p|]; [|apply (Hhere rest' eq_refl); left; discriminate].
    destruct (N.eqb p SPACE) eqn:Hp.
    2:{ apply (Hhere rest' eq_refl). left. intros Heq. injection Heq as ->.
        discriminate. }
    destruct rest' as [|d rest'']; [apply (Hhere [] eq_refl); right; discriminate|].
    destruct (N.eqb d SPACE) eqn:Hd.
    2:{ apply (Hhere (d :: rest'') eq_refl). right. simpl. intros Heq.
        injection Heq as ->. discriminate. }
    apply IH in H; [|simpl; lia].
    destruct H as [pre [post [-> Hb]]].
    exists (PIPE :: d :: pre), post. split; [reflexivity|].
    cbn [List.map]. now rewrite !last_cons.
  - apply IH in H; [|simpl; lia].
    destruct H as [pre [post [-> Hb]]].
    exists (c :: pre), post. split; [reflexivity|].
    cbn [List.map]. now rewrite last_cons.
Qed.

Section Spacing.

Variable E : jsstring -> jsstring.

(** [parseReqline] fails with "Invalid spacing around pipe delimiter"
    exactly when some pipe of the input has no space just before it or none
    just after it. *)
Theorem pipe_spacing_error_exactly (reqline : jsstring) :
  parseReqline E reqline = Throw PipeSpacing <-> misplacedPipe reqline.
Proof.
  split.
  - intros H. apply parseReqline_origin in H
      as [[H _] | [[_ H] | [[_ [segs [Hs H]]] | [ps [_ [[n H]|[m H]]]]]]];
      try discriminate.
    + unfold splitByPipe in H.
      destruct (splitLoop None reqline [] []) as [[sg cur]|e] eqn:Hl;
        cbn [bind] in H.
      * destruct (_ <? 2)%nat; discriminate.
      * apply splitLoop_Throw_misplaced in Hl. exact Hl.
    + apply splitByPipe_Ok in Hs as [_ [Htr _]].
      destruct H as [H | [ps [Hl H]]].
      * apply parseSegments_Throw in H as [H|[k H]]; discriminate.
      * pose proof (parseSegments_classifiable _ _ _ _ Hl) as Hc.
        apply (validateKeywordOrder_Throw _ _ Htr Hc) in H as [H|[H|H]];
          discriminate.
  - intros [pre [post [-> Hbad]]]. unfold parseReqline.
    destruct (trim (pre ++ PIPE :: post)) eqn:Ht.
    { rewrite trim_nil in Ht.
      assert (Hin : In PIPE (pre ++ PIPE :: post))
        by (apply in_or_app; right; now left).
      apply Ht in Hin. discriminate. }
    unfold splitByPipe.
    now rewrite (splitLoop_misplaced _ None [] [] pre post eq_refl Hbad).
Qed.

Lemma empty_statement_string (reqline : jsstring) :
  parseReqline E reqline = Throw EmptyReqline
  <-> (forall c, In c reqline -> is_ws c = true).
Proof.
  rewrite <- trim_nil. split.
  - intros H. apply parseReqline_origin in H
      as [[_ H] | [[_ H] | [[_ [segs [Hs H]]] | [ps [_ [[n H]|[m H]]]]]]];
      try discriminate; [assumption | |].
    + apply splitByPipe_Throw in H as [H|H]; discriminate.
    + apply splitByPipe_Ok in Hs as [_ [Htr _]].
      destruct H as [H | [ps [Hl H]]].
      * apply parseSegments_Throw in H as [H|[k H]]; discriminate.
      * pose proof (parseSegments_classifiable _ _ _ _ Hl) as Hc.
        apply (validateKeywordOrder_Throw _ _ Htr Hc) in H as [H|[H|H]];
          discriminate.
  - intros H. unfold parseReqline. now rewrite H.
Qed.

(** [parseReqline], given any value, fails with "Reqline statement cannot
    be empty" exactly when the value is not a string or is a string that is
    empty or all white space. *)
Theorem empty_statement_exactly (reqline : json) :
  parseReqlineOf E reqline = Throw EmptyReqline
  <-> (forall s, reqline = JString s ->
                 forall c, In c s -> is_ws c = true).
Proof.
  destruct reqline as [| | |s| |]; cbn [parseReqlineOf];
    try (split; [intros _ s Hs; discriminate Hs | reflexivity]).
  rewrite empty_statement_string. split.
  - intros H s' Hs'. injection Hs' as <-. exact H.
  - intros H. exact (H s eq_refl).
Qed.

End Spacing.


(** ** The segments *)

Lemma trimStart_incl (s : jsstring) (c : codeunit) :
  In c (trimStart s) -> In c s.
Proof.
  destruct (trimStart_split s) as [p [Hs _]]. intros H.
  rewrite Hs. apply in_or_app. now right.
Qed.

Lemma trim_incl (s : jsstring) (c : codeunit) : In c (trim s) -> In c s.
Proof.
  unfold trim, trimEnd. intros H. apply in_rev in H.
  apply trimStart_incl in H. apply in_rev in H.
  now apply trimStart_incl.
Qed.

Lemma splitLoop_pipe_free (rest : jsstring) :
  forall prev current segments segments' current',
    splitLoop prev rest current segments = Ok (segments', current') ->
    ~ In PIPE current ->
    Forall (fun s => ~ In PIPE s) segments ->
    ~ In PIPE current' /\ Forall (fun s => ~ In PIPE s) segments'.
Proof.
  induction rest as [rest IH] using by_length.
  intros prev current segments segments' current' H Hcur Hsegs.
  destruct rest as [|c rest']; cbn [splitLoop] in H.
  - injection H as <- <-. auto.
  - destruct (N.eqb c PIPE) eqn:Hc.
    + destruct prev as [p|]; [|discriminate].
      destruct (N.eqb p SPACE); [|discriminate].
      destruct rest' as [|d rest'']; [discriminate|].
      destruct (N.eqb d SPACE); [|discriminate].
      apply IH in H; [assumption | simpl; lia | intros [] |].
      apply Forall_app. split; [assumption|].
      constructor; [|constructor]. intros Hin. apply Hcur.
      now apply trim_incl.
    + apply IH in H; [assumption | simpl; lia | | assumption].
      intros Hin. apply in_app_or in Hin as [Hin|[Heq|[]]]; [auto|].
      subst c. rewrite N.eqb_refl in Hc. discriminate.
Qed.

(** What [splitByPipe] returns: two segments or more, each of them trimmed
    and free of pipes. *)
Theorem splitByPipe_segments (reqline : jsstring) (segments : list jsstring)
    (H : splitByPipe reqline = Ok segments) :
  (2 <= List.length segments)%nat
  /\ forall segment, In segment segments ->
                     trim segment = segment /\ ~ In PIPE segment.
Proof.
  pose proof (splitByPipe_Ok _ _ H) as [Hlen [Htr _]].
  split; [assumption|]. intros segment Hin.
  split; [rewrite Forall_forall in Htr; now apply Htr|].
  unfold splitByPipe in H.
  destruct (splitLoop None reqline [] []) as [[segs current]|e] eqn:Hl;
    cbn [bind] in H; [|discriminate].
  destruct (splitLoop_pipe_free _ _ _ _ _ _ Hl (fun x => x) (Forall_nil _))
    as [Hcur Hsegs].
  destruct (_ <? 2)%nat; [discriminate|]. injection H as <-.
  rewrite Forall_forall in Hsegs.
  destruct (trim current) eqn:Ht; [now apply Hsegs|].
  apply in_app_or in Hin as [Hin|[<-|[]]]; [now apply Hsegs|].
  intros Hp. apply Hcur. apply trim_incl. now rewrite Ht.
Qed.

(** A trimmed text that is not empty stays the same when a space is put
    after it and it is trimmed again. *)
Lemma trim_with_space (s : jsstring) :
  trim s = s -> s <> [] -> trim (s ++ [SPACE]) = s.
Proof.
  intros Ht Hne.
  destruct (trim_ends s) as [H | [a [m [z [Ha [Hwa _]]]]]];
    [congruence|].
  rewrite Ht in Ha.
  assert (Hstart : trimStart s = s) by (rewrite Ha; now apply trimStart_fixed).
  unfold trim in *. rewrite Hstart in Ht.
  assert (Hstart' : trimStart (s ++ [SPACE]) = s ++ [SPACE]).
  { rewrite Ha. cbn [app]. now apply trimStart_fixed. }
  rewrite Hstart'. unfold trimEnd in *. rewrite rev_app_distr.
  cbn [rev app]. cbn [trimStart].
  change (is_ws SPACE) with true. cbv iota. exact Ht.
Qed.

Lemma splitLoop_joined (segments : list jsstring) :
  forall prev acc,
    segments <> [] ->
    Forall (fun s => trim s = s /\ s <> [] /\ ~ In PIPE s) segments ->
    splitLoop prev (joinSegments segments) [] acc =
    Ok (acc ++ removelast segments, last segments []).
Proof.
  induction segments as [|s0 segments IH]; intros prev acc Hne Hall;
    [contradiction|].
  inversion Hall as [|? ? [Ht [Hs0 Hp]] Hall']; subst.
  destruct segments as [|s1 segments].
  - cbn [joinSegments removelast last].
    rewrite <- (app_nil_r s0) at 1.
    rewrite splitLoop_before_pipe by assumption.
    cbn [splitLoop app]. now rewrite app_nil_r.
  - change (joinSegments (s0 :: s1 :: segments))
      with (s0 ++ js " | " ++ joinSegments (s1 :: segments)).
    replace (s0 ++ js " | " ++ joinSegments (s1 :: segments))
      with ((s0 ++ [SPACE]) ++ PIPE :: SPACE :: joinSegments (s1 :: segments))
      by (rewrite <- app_assoc; reflexivity).
    rewrite splitLoop_before_pipe.
    2:{ intros Hin. apply in_app_or in Hin as [Hin|[Hin|[]]]; [auto|].
        discriminate. }
    rewrite map_app. cbn [List.map]. rewrite last_last. cbn [app splitLoop].
    rewrite !N.eqb_refl. rewrite (trim_with_space _ Ht Hs0).
    rewrite IH by (assumption || discriminate).
    change (removelast (s0 :: s1 :: segments))
      with (s0 :: removelast (s1 :: segments)).
    change (last (s0 :: s1 :: segments) []) with (last (s1 :: segments) []).
    now rewrite <- app_assoc.
Qed.

Lemma splitByPipe_joined (segments : list jsstring)
    (Hlen : (2 <= List.length segments)%nat)
    (Hall : Forall (fun s => trim s = s /\ s <> [] /\ ~ In PIPE s) segments) :
  splitByPipe (joinSegments segments) = Ok segments.
Proof.
  assert (Hne : segments <> []) by (intros ->; simpl in Hlen; lia).
  unfold splitByPipe. rewrite splitLoop_joined by assumption.
  cbn [bind app].
  destruct (exists_last Hne) as [init [z Hz]]. subst segments.
  rewrite removelast_last, last_last.
  apply Forall_app in Hall as [_ Hz]. inversion Hz as [|? ? [Ht [Hzne _]] _].
  subst. rewrite Ht. destruct z as [|c z]; [contradiction|].
  apply Nat.ltb_ge in Hlen. now rewrite Hlen.
Qed.

(** Round trip: segments that are trimmed, not empty and free of pipes,
    two or more of them, come back from [splitByPipe] when they are joined
    with [" | "]. *)
Theorem splitByPipe_joinSegments (segments : list jsstring)
    (Hlen : (2 <= List.length segments)%nat)
    (Hall : Forall (fun s => trim s = s /\ s <> [] /\ ~ In PIPE s) segments) :
  splitByPipe (joinSegments segments) = Ok segments.
Proof. exact (splitByPipe_joined segments Hlen Hall). Qed.

(** ** What parseSegment returns *)

Lemma startsWith_prefix (p rest : jsstring) : startsWith (p ++ rest) p = true.
Proof.
  induction p as [|c p IH]; [reflexivity|].
  cbn [app startsWith]. now rewrite N.eqb_refl, IH.
Qed.

Lemma startsWith_inv (s p : jsstring) :
  startsWith s p = true -> exists rest, s = p ++ rest.
Proof.
  revert s; induction p as [|c p IH]; intros s H.
  - now exists s.
  - destruct s as [|d s]; [discriminate|]. cbn [startsWith] in H.
    apply andb_prop in H as [Hd H]. apply N.eqb_eq in Hd. subst d.
    destruct (IH _ H) as [rest ->]. now exists rest.
Qed.

Lemma trimStart_keeps_suffix (a b : jsstring) (c : codeunit) (b' : jsstring) :
  b = c :: b' -> is_ws c = false ->
  exists y, trimStart (a ++ b) = y ++ b.
Proof.
  intros Hb Hc. induction a as [|d a [y IH]].
  - exists []. subst b. cbn [app]. now apply trimStart_fixed.
  - cbn [app trimStart]. destruct (is_ws d).
    + now exists y.
    + now exists (d :: a).
Qed.

(** A prefix without white space is still a prefix after [trim]. *)
Lemma startsWith_trim (s p : jsstring) :
  p <> [] -> (forall c, In c p -> is_ws c = false) ->
  startsWith s p = true -> startsWith (trim s) p = true.
Proof.
  intros Hne Hp H. destruct (startsWith_inv _ _ H) as [rest ->].
  destruct p as [|c p]; [contradiction|].
  unfold trim. cbn [app].
  rewrite trimStart_fixed by (apply Hp; now left).
  unfold trimEnd. change (c :: p ++ rest) with ((c :: p) ++ rest).
  rewrite rev_app_distr.
  destruct (exists_last (l := c :: p)) as [init [z Hz]]; [discriminate|].
  assert (Hrev : rev (c :: p) = z :: rev init).
  { rewrite Hz. rewrite rev_app_distr. reflexivity. }
  assert (Hwz : is_ws z = false).
  { apply Hp. rewrite Hz. apply in_or_app. right. now left. }
  destruct (trimStart_keeps_suffix (rev rest) _ _ _ Hrev Hwz) as [y Hy].
  rewrite Hy, rev_app_distr, rev_involutive. apply startsWith_prefix.
Qed.

Lemma parseSegment_checks (segment : jsstring) (index : nat) (k v : jsstring) :
  parseSegment segment index = Ok (k, v) ->
  exists raw,
    trim segment = k ++ SPACE :: raw /\ v = trim raw
    /\ startsWith raw [SPACE] = false
    /\ (k = js "HTTP" -> includes_str VALID_METHODS raw = true)
    /\ (k = js "URL" ->
        startsWith raw (js "http://") = true
        \/ startsWith raw (js "https://") = true).
Proof.
  intros H. pose proof (parseSegment_Ok _ _ _ _ H) as [i [Hsp [Hk [_ [Hv Hms]]]]].
  exists (skipn (i + 1) (trim segment)).
  split; [rewrite Hk; now apply firstSpace_split|].
  split; [assumption|]. split; [assumption|].
  unfold parseSegment in H.
  destruct (trim segment) as [|c t] eqn:Ht; [discriminate|].
  rewrite Hsp in H. unfold substring_to, substring_from in H.
  rewrite <- Hk in H.
  destruct (includes_str ALL_KEYWORDS k); cbn [negb bind] in H;
    [|destruct (lowercaseKeyword k); discriminate].
  rewrite Hms in H. cbn [bind] in H.
  split.
  - intros ->. change (str_eqb (js "HTTP") (js "HTTP")) with true in H.
    destruct (includes_str VALID_METHODS (skipn (i + 1) (c :: t)));
      [reflexivity|].
    cbn [negb] in H. destruct (_ || _); discriminate.
  - intros ->. change (str_eqb (js "URL") (js "HTTP")) with false in H.
    cbn [bind] in H.
    change (str_eqb (js "URL") (js "URL")) with true in H.
    destruct (trim (skipn (i + 1) (c :: t))); [discriminate|].
    destruct (startsWith (skipn (i + 1) (c :: t)) (js "http://")); [now left|].
    destruct (startsWith (skipn (i + 1) (c :: t)) (js "https://")); [now right|].
    discriminate.
Qed.

Lemma parseSegment_shape (segment : jsstring) (index : nat) (k v : jsstring)
    (H : parseSegment segment index = Ok (k, v)) :
  In k ALL_KEYWORDS
  /\ v <> [] /\ trim v = v
  /\ (exists raw, trim segment = k ++ SPACE :: raw /\ v = trim raw)
  /\ (k = js "HTTP" -> v = js "GET" \/ v = js "POST")
  /\ (k = js "URL" ->
      startsWith v (js "http://") = true \/ startsWith v (js "https://") = true).
Proof.
  pose proof (parseSegment_keyword _ _ _ _ H) as [_ [Hin Hne]].
  destruct (parseSegment_checks _ _ _ _ H) as [raw [Hseg [Hv [_ [Hm Hu]]]]].
  split; [assumption|]. split; [assumption|].
  split; [subst v; apply trim_idempotent|].
  split; [now exists raw|]. split.
  - intros Hk. specialize (Hm Hk). apply includes_str_In in Hm.
    destruct Hm as [<-|[<-|[]]]; subst v; [left | right]; reflexivity.
  - intros Hk. subst v.
    destruct (Hu Hk) as [Hp|Hp]; [left | right];
      (apply startsWith_trim; [discriminate | | assumption]);
      intros c Hc; vm_compute in Hc;
      repeat (destruct Hc as [<-|Hc]; [reflexivity|]); destruct Hc.
Qed.

(** What [parseSegment] returns: a recognized keyword and a value that is
    not empty and is trimmed, the segment being the keyword, one space and
    the value, with white space around; the value of HTTP is GET or POST and
    the value of URL begins with one of the two schemes. *)
Theorem parseSegment_result (segment : jsstring) (index : nat) (k v : jsstring)
    (H : parseSegment segment index = Ok (k, v)) :
  In k ALL_KEYWORDS
  /\ v <> [] /\ trim v = v
  /\ (exists raw, trim segment = k ++ SPACE :: raw /\ v = trim raw)
  /\ (k = js "HTTP" -> v = js "GET" \/ v = js "POST")
  /\ (k = js "URL" ->
      startsWith v (js "http://") = true \/ startsWith v (js "https://") = true).
Proof. exact (parseSegment_shape segment index k v H). Qed.

(** ** The loop over the segments, again *)

Lemma parseSegments_app (a b : list jsstring) :
  forall i ps,
    parseSegments (a ++ b) i ps =
    (ps' <- parseSegments a i ps ;; parseSegments b (i + List.length a) ps').
Proof.
  induction a as [|s a IH]; intros i ps.
  - cbn [app parseSegments bind List.length]. now rewrite Nat.add_0_r.
  - cbn [app parseSegments List.length].
    destruct (parseSegment s i) as [[k v]|e]; cbn [bind]; [|reflexivity].
    destruct (truthy_string (obj_get k ps)); [reflexivity|].
    rewrite IH. now rewrite Nat.add_succ_r.
Qed.

(** While the loop runs, no segment finds its keyword set. *)
Lemma parseSegments_fresh (segments : list jsstring) :
  forall i ps ps' s j k v,
    parseSegments segments i ps = Ok ps' ->
    In s segments -> parseSegment s j = Ok (k, v) ->
    truthy_string (obj_get k ps) = false.
Proof.
  induction segments as [|s0 segments IH]; intros i ps ps' s j k v H Hin Hs;
    [destruct Hin|].
  cbn [parseSegments] in H.
  destruct (parseSegment s0 i) as [[k0 v0]|e] eqn:Hs0; cbn [bind] in H;
    [|discriminate].
  destruct (truthy_string (obj_get k0 ps)) eqn:Hdup; [discriminate|].
  destruct Hin as [<-|Hin].
  - rewrite (parseSegment_index s0 j i), Hs0 in Hs. now injection Hs as <- <-.
  - pose proof (IH _ _ _ _ _ _ _ H Hin Hs) as Hf.
    destruct (str_eqb k k0) eqn:Hk.
    + apply str_eqb_eq in Hk. subst k0. rewrite obj_get_set_same in Hf.
      apply parseSegment_keyword in Hs0 as [_ [_ Hv0]].
      now rewrite (truthy_string_Some _ Hv0) in Hf.
    + apply str_eqb_neq in Hk. now rewrite obj_get_set_other in Hf.
Qed.

Lemma parseSegments_NoDup (segments : list jsstring) :
  forall i ps ps',
    parseSegments segments i ps = Ok ps' ->
    NoDup (List.map (fun s => keywordOf (trim s)) segments).
Proof.
  induction segments as [|s0 segments IH]; intros i ps ps' H;
    [constructor|].
  cbn [parseSegments] in H.
  destruct (parseSegment s0 i) as [[k0 v0]|e] eqn:Hs0; cbn [bind] in H;
    [|discriminate].
  destruct (truthy_string (obj_get k0 ps)) eqn:Hdup; [discriminate|].
  cbn [List.map]. constructor; [|eapply IH; eassumption].
  intros Hin. apply in_map_iff in Hin as [s [Hk Hs]].
  pose proof (parseSegments_classifiable _ _ _ _ H) as Hc.
  rewrite Forall_forall in Hc. destruct (Hc s Hs) as [k [v Hkv]].
  pose proof (parseSegment_keyword _ _ _ _ Hkv) as [Hks _].
  pose proof (parseSegment_keyword _ _ _ _ Hs0) as [Hk0 [_ Hv0]].
  pose proof (parseSegments_fresh _ _ _ _ _ _ _ _ H Hs Hkv) as Hf.
  assert (Heq : k = k0) by congruence.
  rewrite Heq, obj_get_set_same in Hf.
  now rewrite (truthy_string_Some _ Hv0) in Hf.
Qed.

Lemma map_keyword_trimmed (segments : list jsstring) :
  Forall trimmed segments ->
  List.map (fun s => keywordOf (trim s)) segments = List.map keywordOf segments.
Proof.
  intros Htr. apply map_ext_in. intros s Hs.
  rewrite Forall_forall in Htr. now rewrite (Htr s Hs).
Qed.

Section Structure.

Variable E : jsstring -> jsstring.

(** The first keyword that occurs a second time is the keyword of the
    error: when the segments up to a segment classify, no two of them have
    one keyword, and the segment classifies with the keyword of one of them,
    [parseReqline] fails with "Duplicate keyword:" and that keyword. *)
Theorem first_duplicate_named (reqline : jsstring)
    (pre : list jsstring) (segment : jsstring) (post : list jsstring)
    (Hsplit : splitByPipe reqline = Ok (pre ++ segment :: post))
    (Hpre : Forall classifiable pre)
    (Hseg : classifiable segment)
    (Hnodup : NoDup (List.map keywordOf pre))
    (Hdup : In (keywordOf segment) (List.map keywordOf pre)) :
  parseReqline E reqline = Throw (DuplicateKeyword (keywordOf segment)).
Proof.
  pose proof (splitByPipe_Ok _ _ Hsplit) as [_ [Htr Hne]].
  apply Forall_app in Htr as [Htr_pre Htr_rest].
  inversion Htr_rest as [|? ? Htr_seg _]; subst.
  destruct (loop_passes _ Htr_pre Hpre Hnodup) as [ps1 Hl1].
  unfold parseReqline. destruct (trim reqline); [contradiction|].
  rewrite Hsplit. cbn [bind]. rewrite parseSegments_app, Hl1.
  cbn [bind parseSegments].
  destruct Hseg as [k [v Hkv]].
  rewrite (parseSegment_index segment _ 0), Hkv. cbn [bind].
  pose proof (parseSegment_keyword _ _ _ _ Hkv) as [Hk _].
  rewrite Htr_seg in Hk. subst k.
  apply in_map_iff in Hdup as [s [Hks Hs]].
  rewrite Forall_forall in Hpre. destruct (Hpre s Hs) as [k' [v' Hkv']].
  pose proof (parseSegment_keyword _ _ _ _ Hkv') as [Hk' [_ Hv']].
  rewrite Forall_forall in Htr_pre. rewrite (Htr_pre s Hs) in Hk'.
  assert (Hsame : k' = keywordOf segment) by congruence.
  rewrite <- Hsame.
  rewrite (parseSegments_stores _ _ _ _ _ _ _ _ Hl1 Hs Hkv').
  now rewrite (truthy_string_Some _ Hv').
Qed.

(** Inside [parseReqline] the check of [validateRequiredKeywords] never
    fires: after the loop and the order check both required keywords are
    set.  "Missing required HTTP keyword" is not an error of
    [parseReqline]. *)
Theorem required_check_never_fires (reqline : jsstring) :
  (forall segments ps,
      splitByPipe reqline = Ok segments ->
      parseSegments segments 0 [] = Ok ps ->
      validateKeywordOrder segments = Ok tt ->
      validateRequiredKeywords ps = Ok tt)
  /\ parseReqline E reqline <> Throw (MissingRequired (js "HTTP")).
Proof.
  split.
  - intros segments ps Hs Hl Ho.
    apply splitByPipe_Ok in Hs as [_ [Htr _]].
    exact (validateRequiredKeywords_Ok _ _ Htr Hl Ho).
  - intros H. apply parseReqline_Throw in H. discriminate.
Qed.

(** [parseJsonSection] returns a value exactly when the text decodes to an
    object, and then it returns that object. *)
Theorem parseJsonSection_returns_object (text sectionName : jsstring) (v : json) :
  parseJsonSection E text sectionName = Ok v
  <-> exists o, v = JObject o /\ JSON_parse text = Some (JObject o).
Proof.
  unfold parseJsonSection, parseJsonSection_try. split.
  - destruct (JSON_parse text) as [[| | | | |o]|];
      try (rewrite section_message_marked; discriminate).
    + intros H. injection H as <-. now exists o.
    + cbn [message]. destruct (includes _ _); discriminate.
  - intros [o [-> ->]]. reflexivity.
Qed.

End Structure.

(** ** The result of parseReqline *)

(** After the earlier stages, the required properties hold the method and
    the url. *)
Lemma classified_required (reqline : jsstring)
    (ps : list (jsstring * jsstring)) :
  classified reqline = Ok ps ->
  exists m u,
    obj_get (js "HTTP") ps = Some m /\ (m = js "GET" \/ m = js "POST")
    /\ obj_get (js "URL") ps = Some u /\ trim u = u
    /\ (startsWith u (js "http://") = true
        \/ startsWith u (js "https://") = true).
Proof.
  intros Hc. apply classified_inv in Hc as [segments [_ [Hs [Hl Ho]]]].
  apply splitByPipe_Ok in Hs as [_ [Htr _]].
  apply validateKeywordOrder_Ok in Ho as [s0 [s1 [rest [-> [H0 H1]]]]].
  pose proof (parseSegments_classifiable _ _ _ _ Hl) as Hc.
  rewrite Forall_forall in Hc, Htr.
  assert (Hin0 : In s0 (s0 :: s1 :: rest)) by now left.
  assert (Hin1 : In s1 (s0 :: s1 :: rest)) by (right; now left).
  destruct (Hc _ Hin0) as [k0 [m Hm]]. destruct (Hc _ Hin1) as [k1 [u Hu]].
  pose proof (parseSegment_keyword _ _ _ _ Hm) as [Hk0 _].
  pose proof (parseSegment_keyword _ _ _ _ Hu) as [Hk1 _].
  rewrite (Htr _ Hin0), H0 in Hk0. rewrite (Htr _ Hin1), H1 in Hk1. subst.
  exists m, u.
  pose proof (parseSegment_shape _ _ _ _ Hm) as [_ [_ [_ [_ [Hmethod _]]]]].
  pose proof (parseSegment_shape _ _ _ _ Hu) as [_ [_ [Htu [_ [_ Hscheme]]]]].
  rewrite (parseSegments_stores _ _ _ _ _ _ _ _ Hl Hin0 Hm).
  rewrite (parseSegments_stores _ _ _ _ _ _ _ _ Hl Hin1 Hu).
  auto 10.
Qed.

Section Result.

Variable E : jsstring -> jsstring.

Lemma parseReqline_shape (reqline : jsstring) (p : ParsedRequest)
    (H : parseReqline E reqline = Ok p) :
  (method p = Some (js "GET") \/ method p = Some (js "POST"))
  /\ (exists u, url p = Some u /\ trim u = u
                /\ (startsWith u (js "http://") = true
                    \/ startsWith u (js "https://") = true))
  /\ exists request,
       toRequest p = Some request
       /\ method p = Some (req_method request)
       /\ url p = Some (req_url request)
       /\ headers p = JObject (req_headers request)
       /\ query p = JObject (req_query request)
       /\ body p = JObject (req_body request).
Proof.
  rewrite parseReqline_classified in H.
  destruct (classified reqline) as [ps|] eqn:Hc; cbn [bind] in H;
    [|discriminate].
  destruct (classified_required _ _ Hc) as [m [u [Hm [Hmv [Hu [Htu Hs]]]]]].
  destruct (optionalSection_cases E reqline ps (js "HEADERS") Hc)
    as [[_ [h Hh]] | [[_ [_ Hh]] | [_ [_ [x Hh]]]]];
    rewrite Hh in H; cbn [bind] in H; try discriminate.
  destruct (optionalSection_cases E reqline ps (js "QUERY") Hc)
    as [[_ [q Hq]] | [[_ [_ Hq]] | [_ [_ [x Hq]]]]];
    rewrite Hq in H; cbn [bind] in H; try discriminate.
  destruct (optionalSection_cases E reqline ps (js "BODY") Hc)
    as [[_ [b Hb]] | [[_ [_ Hb]] | [_ [_ [x Hb]]]]];
    rewrite Hb in H; cbn [bind] in H; try discriminate.
  injection H as <-. unfold toRequest. cbn [method url headers query body].
  rewrite Hm, Hu. split; [destruct Hmv; subst; auto|].
  split; [exists u; auto|].
  eexists. split; [reflexivity|]. cbn. auto.
Qed.

(** What [parseReqline] returns: the method is GET or POST, the url is
    trimmed and begins with http:// or https://, and headers, query and body
    are objects, so that the result is a request that [executeRequest] can
    destructure. *)
Theorem parsed_request_shape (reqline : jsstring) (p : ParsedRequest)
    (H : parseReqline E reqline = Ok p) :
  (method p = Some (js "GET") \/ method p = Some (js "POST"))
  /\ (exists u, url p = Some u /\ trim u = u
                /\ (startsWith u (js "http://") = true
                    \/ startsWith u (js "https://") = true))
  /\ exists request,
       toRequest p = Some request
       /\ method p = Some (req_method request)
       /\ url p = Some (req_url request)
       /\ headers p = JObject (req_headers request)
       /\ query p = JObject (req_query request)
       /\ body p = JObject (req_body request).
Proof. exact (parseReqline_shape reqline p H). Qed.

(** The optional sections may come in any order: two inputs that split
    into the same first two segments and the same further segments in
    different orders parse to the same result. *)
Theorem optional_sections_any_order (reqline1 reqline2 : jsstring)
    (s0 s1 : jsstring) (opt1 opt2 : list jsstring) (p : ParsedRequest)
    (Hsplit1 : splitByPipe reqline1 = Ok (s0 :: s1 :: opt1))
    (Hsplit2 : splitByPipe reqline2 = Ok (s0 :: s1 :: opt2))
    (Hperm : Permutation opt1 opt2)
    (Hparse : parseReqline E reqline1 = Ok p) :
  parseReqline E reqline2 = Ok p.
Proof.
  rewrite parseReqline_classified in Hparse.
  destruct (classified reqline1) as [ps1|] eqn:Hc1; cbn [bind] in Hparse;
    [|discriminate].
  destruct (classified_inv _ _ Hc1) as [segs [_ [Hs [Hl1 Ho1]]]].
  rewrite Hsplit1 in Hs. injection Hs as <-.
  pose proof (splitByPipe_Ok _ _ Hsplit1) as [_ [Htr1 _]].
  pose proof (splitByPipe_Ok _ _ Hsplit2) as [_ [Htr2 Hne2]].
  assert (Hp : Permutation (s0 :: s1 :: opt1) (s0 :: s1 :: opt2))
    by (do 2 apply perm_skip; assumption).
  pose proof (parseSegments_classifiable _ _ _ _ Hl1) as Hcl1.
  assert (Hcl2 : Forall classifiable (s0 :: s1 :: opt2))
    by (eapply Permutation_Forall; eassumption).
  assert (Hnd2 : NoDup (List.map keywordOf (s0 :: s1 :: opt2))).
  { apply (Permutation_NoDup (l := List.map keywordOf (s0 :: s1 :: opt1)));
      [now apply Permutation_map|].
    rewrite <- (map_keyword_trimmed _ Htr1).
    eapply parseSegments_NoDup; eassumption. }
  destruct (loop_passes _ Htr2 Hcl2 Hnd2) as [ps2 Hl2].
  assert (Ho2 : validateKeywordOrder (s0 :: s1 :: opt2) = Ok tt) by exact Ho1.
  assert (Hc2 : classified reqline2 = Ok ps2).
  { unfold classified. destruct (trim reqline2); [contradiction|].
    rewrite Hsplit2. cbn [bind]. rewrite Hl2. cbn [bind]. rewrite Ho2.
    cbn [bind]. now rewrite (validateRequiredKeywords_Ok _ _ Htr2 Hl2 Ho2). }
  assert (Hsome : forall segsA segsB psA psB k v,
             parseSegments segsA 0 [] = Ok psA ->
             parseSegments segsB 0 [] = Ok psB ->
             Permutation segsA segsB ->
             obj_get k psA = Some v -> obj_get k psB = Some v).
  { intros segsA segsB psA psB k v HA HB HAB Hk.
    destruct (parseSegments_keys _ _ _ _ k HA) as [Hnil|Hin];
      [congruence | now elim Hnil |].
    apply in_map_iff in Hin as [s [Hks Hsin]].
    pose proof (parseSegments_classifiable _ _ _ _ HA) as HcA.
    rewrite Forall_forall in HcA. destruct (HcA s Hsin) as [k' [v' Hkv]].
    pose proof (parseSegment_keyword _ _ _ _ Hkv) as [Hk' _].
    assert (Heq : k' = k) by congruence. rewrite Heq in Hkv.
    rewrite (parseSegments_stores _ _ _ _ _ _ _ _ HA Hsin Hkv) in Hk.
    injection Hk as <-.
    apply (parseSegments_stores _ _ _ _ _ _ _ _ HB
             (Permutation_in _ HAB Hsin) Hkv). }
  assert (Hsame : forall k, obj_get k ps2 = obj_get k ps1).
  { intros k. destruct (obj_get k ps1) as [v|] eqn:H1.
    - exact (Hsome _ _ _ _ _ _ Hl1 Hl2 Hp H1).
    - destruct (obj_get k ps2) as [v|] eqn:H2; [|reflexivity].
      pose proof (Hsome _ _ _ _ _ _ Hl2 Hl1 (Permutation_sym Hp) H2).
      congruence. }
  rewrite parseReqline_classified, Hc2. cbn [bind].
  unfold optionalSection in *. now rewrite !Hsame.
Qed.

End Result.

(** * The request service *)

(** ** The configuration for axios *)

(** A body is sent only with a POST that has one; in every other case the
    configuration has no data and the headers are the ones given. *)
Theorem body_only_with_post (r : Request) (fullUrl : jsstring) :
  (cfg_data (axiosConfigOf r fullUrl) = None
   <-> req_method r <> js "POST" \/ req_body r = [])
  /\ (cfg_data (axiosConfigOf r fullUrl) = None ->
      cfg_headers (axiosConfigOf r fullUrl) = req_headers r)
  /\ (cfg_data (axiosConfigOf r fullUrl) <> None ->
      cfg_data (axiosConfigOf r fullUrl) = Some (req_body r)).
Proof.
  unfold axiosConfigOf.
  destruct (str_eqb (req_method r) (js "POST")) eqn:Hm.
  - apply str_eqb_eq in Hm. destruct (req_body r) as [|b0 body'] eqn:Hb.
    + cbn [Object_keys List.map List.length Nat.ltb Nat.leb andb
           cfg_data cfg_headers].
      repeat split; auto. intros H. now elim H.
    + cbn [Object_keys List.map List.length Nat.ltb Nat.leb andb].
      destruct (negb _ && negb _); cbn [cfg_data cfg_headers]; repeat split;
        try discriminate; auto; intros [H|H]; congruence.
  - apply str_eqb_neq in Hm. cbn [andb cfg_data cfg_headers].
    repeat split; auto. intros H. now elim H.
Qed.

(** A POST with a body goes out with a content type: the configuration
    holds a truthy Content-Type or content-type, every header of another
    name is as it was given, and headers that hold a truthy Content-Type or
    content-type are passed as they are. *)
Theorem post_goes_out_with_content_type (r : Request) (fullUrl : jsstring)
    (Hm : req_method r = js "POST") (Hb : req_body r <> []) :
  let sent := cfg_headers (axiosConfigOf r fullUrl) in
  (truthy_prop (obj_get (js "Content-Type") sent) = true
   \/ truthy_prop (obj_get (js "content-type") sent) = true)
  /\ (forall name, name <> js "Content-Type" ->
                   obj_get name sent = obj_get name (req_headers r))
  /\ (truthy_prop (obj_get (js "Content-Type") (req_headers r)) = true
      \/ truthy_prop (obj_get (js "content-type") (req_headers r)) = true ->
      sent = req_headers r).
Proof.
  cbv zeta. rewrite (axiosConfigOf_headers r fullUrl Hm Hb).
  destruct (truthy_prop (obj_get (js "Content-Type") (req_headers r))) eqn:H1;
    [cbn [orb]; auto|].
  destruct (truthy_prop (obj_get (js "content-type") (req_headers r))) eqn:H2;
    [cbn [orb]; auto|].
  cbn [orb]. split; [|split].
  - left. now rewrite obj_get_set_same.
  - intros name Hn. now apply obj_get_set_other.
  - intros [H|H]; discriminate.
Qed.

Section ServiceProperties.

Variable urlWithParams : jsstring -> obj -> option jsstring.
Variable axios : AxiosConfig -> AxiosReply.
Variable start stop : Z.

(** [executeRequest] rejects with a message in two cases only: axios had
    no response ("Network error", with the url it called) or failed in
    another way ("Request error", with the message).  An error status of
    the server does not reject. *)
Theorem executeRequest_rejections (r : Request) (msg : jsstring) :
  executeRequest urlWithParams axios start stop r = Rejected msg
  <-> exists fullUrl,
        buildFullUrl urlWithParams (req_url r) (req_query r) = Some fullUrl
        /\ ((axios (axiosConfigOf r fullUrl) = ErrorWithRequest
             /\ msg = js "Network error: Unable to reach " ++ fullUrl)
            \/ exists m, axios (axiosConfigOf r fullUrl) = ErrorOther m
                         /\ msg = js "Request error: " ++ m).
Proof.
  unfold executeRequest. split.
  - destruct (buildFullUrl urlWithParams (req_url r) (req_query r))
      as [fullUrl|]; [|discriminate].
    destruct (axios (axiosConfigOf r fullUrl)) as [st d|st d txt| |m] eqn:Ha;
      try discriminate; intros H; injection H as <-; exists fullUrl;
      split; try reflexivity; [left | right; exists m]; auto.
  - intros [fullUrl [-> [[-> ->] | [m [-> ->]]]]]; reflexivity.
Qed.

(** When [executeRequest] is fulfilled, the request of the result is the
    request as it was given, with the url that was called: the headers are
    the caller's, without a default that went out.  The duration is the
    difference of the two time stamps, and the status is the status of the
    response or of the error; a falsy payload of an error is replaced by
    [{error: statusText}]. *)
Theorem executeRequest_fulfilled (r : Request) (rq : RequestEcho)
    (rs : ResponseInfo)
    (H : executeRequest urlWithParams axios start stop r = Fulfilled rq rs) :
  exists fullUrl,
    buildFullUrl urlWithParams (req_url r) (req_query r) = Some fullUrl
    /\ rq = {| echo_query := req_query r; echo_body := req_body r;
               echo_headers := req_headers r; full_url := fullUrl |}
    /\ duration rs = (stop - start)%Z
    /\ request_start_timestamp rs = start
    /\ request_stop_timestamp rs = stop
    /\ ((exists data,
            axios (axiosConfigOf r fullUrl) = Resolved (http_status rs) data
            /\ response_data rs = data)
        \/ (exists data statusText,
               axios (axiosConfigOf r fullUrl)
               = ErrorWithResponse (http_status rs) data statusText
               /\ response_data rs =
                  (if truthy_prop data then data
                   else Some (JObject [(js "error", JString statusText)])))).
Proof.
  unfold executeRequest in H.
  destruct (buildFullUrl urlWithParams (req_url r) (req_query r))
    as [fullUrl|]; [|discriminate].
  exists fullUrl. split; [reflexivity|].
  destruct (axios (axiosConfigOf r fullUrl)) as [st d|st d txt| |m] eqn:Ha;
    try discriminate; injection H as <- <-; cbn;
    repeat split; [left | right]; eauto.
Qed.

End ServiceProperties.

(** ** From the parser to the request *)

Section Dispatch.

Variable E : jsstring -> jsstring.

(** The configuration for a parsed input: the method is get or post, the
    time limit is 30000, and a GET carries no data and the headers as they
    were written, BODY section or not.  Without query parameters the url
    that is called is the url of the input, and the [URL] class plays no
    part. *)
Theorem parsed_request_config (reqline : jsstring) (p : ParsedRequest)
    (request : Request) (fullUrl : jsstring)
    (Hparse : parseReqline E reqline = Ok p)
    (Hreq : toRequest p = Some request) :
  let cfg := axiosConfigOf request fullUrl in
  (cfg_method cfg = js "get" \/ cfg_method cfg = js "post")
  /\ cfg_url cfg = fullUrl
  /\ cfg_timeout cfg = 30000%N
  /\ (req_method request = js "GET" ->
      cfg_data cfg = None /\ cfg_headers cfg = req_headers request)
  /\ (req_query request = [] ->
      forall urlWithParams,
        buildFullUrl urlWithParams (req_url request) (req_query request)
        = Some (req_url request)).
Proof.
  cbv zeta.
  destruct (parseReqline_shape E _ _ Hparse)
    as [Hm [_ [request' [Hreq' [Hmeth _]]]]].
  rewrite Hreq in Hreq'. injection Hreq' as <-.
  assert (Hmr : req_method request = js "GET" \/ req_method request = js "POST").
  { destruct Hm as [Hm|Hm]; rewrite Hm in Hmeth; injection Hmeth as <-; auto. }
  split.
  { unfold axiosConfigOf.
    destruct Hmr as [-> | ->];
      [left | right];
      destruct (_ && _); [destruct (_ && _)| | destruct (_ && _)|];
      reflexivity. }
  split.
  { unfold axiosConfigOf. destruct (_ && _); [destruct (_ && _)|]; reflexivity. }
  split.
  { unfold axiosConfigOf. destruct (_ && _); [destruct (_ && _)|]; reflexivity. }
  split.
  - intros Hg. unfold axiosConfigOf. rewrite Hg.
    change (str_eqb (js "GET") (js "POST")) with false. cbn [andb].
    split; reflexivity.
  - intros Hq urlWithParams. unfold buildFullUrl. now rewrite Hq.
Qed.

End Dispatch.

(** * The route *)

Section RouteProperties.

Variable E : jsstring -> jsstring.
Variable urlWithParams : jsstring -> obj -> option jsstring.
Variable invalidUrlMessage : jsstring.
Variable axios : AxiosConfig -> AxiosReply.
Variable start stop : Z.

Let route := handlePost E urlWithParams invalidUrlMessage axios start stop.

Lemma route_cases (body : obj) :
  exists reply,
    route body = Some reply
    /\ ((reply_status reply = 400%N /\ exists msg, reply_body reply = ErrorReply msg)
        \/ (reply_status reply = 200%N
            /\ exists s p request rq rs,
                 obj_get (js "reqline") body = Some (JString s)
                 /\ parseReqline E s = Ok p
                 /\ toRequest p = Some request
                 /\ executeRequest urlWithParams axios start stop request
                    = Fulfilled rq rs
                 /\ reply_body reply = ResultReply rq rs)).
Proof.
  unfold route, handlePost.
  assert (Hbad : forall reply,
             reply_status reply = 400%N ->
             (exists msg, reply_body reply = ErrorReply msg) ->
             exists reply0,
               Some reply = Some reply0
               /\ ((reply_status reply0 = 400%N
                    /\ exists msg, reply_body reply0 = ErrorReply msg)
                   \/ (reply_status reply0 = 200%N
                       /\ exists s p request rq rs,
                            obj_get (js "reqline") body = Some (JString s)
                            /\ parseReqline E s = Ok p
                            /\ toRequest p = Some request
                            /\ executeRequest urlWithParams axios start stop
                                 request = Fulfilled rq rs
                            /\ reply_body reply0 = ResultReply rq rs))).
  { intros reply Hst Hmsg. exists reply. split; [reflexivity|]. left. auto. }
  destruct (obj_get (js "reqline") body) as [v|] eqn:Hget.
  2:{ apply Hbad; [reflexivity | eexists; reflexivity]. }
  destruct (truthy v) eqn:Hv; cbn [negb].
  2:{ apply Hbad; [reflexivity | eexists; reflexivity]. }
  destruct (parseReqlineOf E v) as [p|e] eqn:Hp.
  2:{ apply Hbad; [reflexivity | eexists; reflexivity]. }
  assert (Hs : exists s, v = JString s /\ parseReqline E s = Ok p).
  { destruct v; try discriminate. eauto. }
  destruct Hs as [s [-> Hs]].
  destruct (parseReqline_shape E _ _ Hs) as [_ [_ [request [Hreq _]]]].
  rewrite Hreq.
  destruct (executeRequest urlWithParams axios start stop request)
    as [rq rs|msg|] eqn:He.
  - eexists. split; [reflexivity|]. right. split; [reflexivity|].
    exists s, p, request, rq, rs. auto.
  - apply Hbad; [reflexivity | eexists; reflexivity].
  - apply Hbad; [reflexivity | eexists; reflexivity].
Qed.

(** The route always replies, with status 200 or 400: what [parseReqline]
    returns is a request that [executeRequest] can take.  A 400 carries a
    message.  A 200 carries the result of [executeRequest] for the parsed
    string. *)
Theorem route_always_replies (body : obj) :
  exists reply,
    route body = Some reply
    /\ ((reply_status reply = 400%N /\ exists msg, reply_body reply = ErrorReply msg)
        \/ (reply_status reply = 200%N
            /\ exists s p request rq rs,
                 obj_get (js "reqline") body = Some (JString s)
                 /\ parseReqline E s = Ok p
                 /\ toRequest p = Some request
                 /\ executeRequest urlWithParams axios start stop request
                    = Fulfilled rq rs
                 /\ reply_body reply = ResultReply rq rs)).
Proof. exact (route_cases body). Qed.

(** Without a usable reqline the route replies 400 before anything is
    parsed or sent: "Missing reqline parameter" when the property is absent
    or falsy (the empty string, null, false, zero), and "Reqline statement
    cannot be empty" when it is a truthy value that is not a string or a
    string of white space. *)
Theorem route_without_reqline (body : obj) :
  (truthy_prop (obj_get (js "reqline") body) = false ->
   route body = Some {| reply_status := 400;
                        reply_body := ErrorReply (js "Missing reqline parameter") |})
  /\
  (forall v, obj_get (js "reqline") body = Some v -> truthy v = true ->
             (forall s, v = JString s -> trim s = []) ->
             route body =
             Some {| reply_status := 400;
                     reply_body :=
                       ErrorReply (js "Reqline statement cannot be empty") |}).
Proof.
  unfold route, handlePost. split.
  - destruct (obj_get (js "reqline") body) as [v|]; [|reflexivity].
    cbn [truthy_prop]. now intros ->.
  - intros v -> Hv Hs. rewrite Hv. cbn [negb].
    destruct v as [| | |s| |]; cbn [parseReqlineOf]; try reflexivity.
    unfold parseReqline. now rewrite (Hs s eq_refl).
Qed.

(** An error of the parser is the message of a 400, whatever the server
    behind the url would answer. *)
Theorem route_parse_error (body : obj) (s : jsstring) (e : Error)
    (Hget : obj_get (js "reqline") body = Some (JString s))
    (Hthrow : parseReqline E s = Throw e) :
  s = [] /\ route body =
            Some {| reply_status := 400;
                    reply_body := ErrorReply (js "Missing reqline parameter") |}
  \/ s <> [] /\ route body =
                Some {| reply_status := 400;
                        reply_body := ErrorReply (message e) |}.
Proof.
  unfold route, handlePost. rewrite Hget. destruct s as [|c s]; [now left|].
  right. split; [discriminate|]. cbn [truthy negb parseReqlineOf].
  now rewrite Hthrow.
Qed.

(** An error status of the server behind the url is not an error of the
    route: for an input that parses and has no query parameters, when axios
    fails with a response, the route replies 200 and the status of that
    response is in the result, with the url of the input as [full_url]. *)
Theorem route_upstream_error_is_200 (s : jsstring) (p : ParsedRequest)
    (status : N) (data : option json) (statusText : jsstring)
    (Hparse : parseReqline E s = Ok p)
    (Hquery : query p = JObject [])
    (Haxios : forall cfg, axios cfg = ErrorWithResponse status data statusText) :
  exists rq rs,
    route [(js "reqline", JString s)]
    = Some {| reply_status := 200; reply_body := ResultReply rq rs |}
    /\ http_status rs = status
    /\ url p = Some (full_url rq).
Proof.
  destruct (parseReqline_shape E _ _ Hparse)
    as [_ [_ [request [Hreq [_ [Hu [_ [Hq _]]]]]]]].
  rewrite Hquery in Hq. injection Hq as Hq.
  assert (Hne : s <> []).
  { intros ->. unfold parseReqline in Hparse. discriminate. }
  unfold route, handlePost. cbn [obj_get]. rewrite str_eqb_refl.
  destruct s as [|c s]; [contradiction|].
  cbn [truthy negb parseReqlineOf]. rewrite Hparse, Hreq.
  unfold executeRequest, buildFullUrl. rewrite <- Hq.
  cbn [Object_keys List.map List.length Nat.eqb]. rewrite Haxios.
  eexists. eexists. split; [reflexivity|]. cbn. split; [reflexivity|].
  exact Hu.
Qed.

End RouteProperties.

(** * What the result holds *)

Lemma trim_fixed (s : jsstring) (a : codeunit) (m : jsstring) (z : codeunit)
    (init : jsstring) :
  s = a :: m -> s = init ++ [z] -> is_ws a = false -> is_ws z = false ->
  trim s = s.
Proof.
  intros Ha Hz Hwa Hwz. unfold trim.
  assert (Hs : trimStart s = s) by (rewrite Ha; now apply trimStart_fixed).
  rewrite Hs. unfold trimEnd. rewrite Hz at 1. rewrite rev_app_distr.
  cbn [rev app]. rewrite trimStart_fixed by assumption.
  change (z :: rev init) with (rev [z] ++ rev init).
  rewrite <- rev_app_distr, rev_involutive. now symmetry.
Qed.

Section Holds.

Variable E : jsstring -> jsstring.

Lemma optionalSection_decodes (ps : list (jsstring * jsstring))
    (name text : jsstring) (v : json) :
  obj_get name ps = Some text -> text <> [] ->
  optionalSection E ps name = Ok v -> JSON_parse text = Some v.
Proof.
  unfold optionalSection. intros -> Hne H.
  destruct text as [|c text]; [contradiction|].
  unfold parseJsonSection, parseJsonSection_try in H.
  destruct (JSON_parse (c :: text)) as [[| | | | |o]|];
    try (rewrite section_message_marked in H; discriminate).
  - congruence.
  - cbn [message] in H. destruct (includes _ _); discriminate.
Qed.

(** The result holds what the segments say: the value of the HTTP segment
    is the method, the value of the URL segment is the url, and the headers,
    the query and the body are what [JSON.parse] makes of the values of
    their segments. *)
Theorem result_holds_segment_values (reqline : jsstring) (p : ParsedRequest)
    (segments : list jsstring) (segment k v : jsstring)
    (Hparse : parseReqline E reqline = Ok p)
    (Hsplit : splitByPipe reqline = Ok segments)
    (Hin : In segment segments)
    (Hseg : parseSegment segment 0 = Ok (k, v)) :
  (k = js "HTTP" -> method p = Some v)
  /\ (k = js "URL" -> url p = Some v)
  /\ (k = js "HEADERS" -> JSON_parse v = Some (headers p))
  /\ (k = js "QUERY" -> JSON_parse v = Some (query p))
  /\ (k = js "BODY" -> JSON_parse v = Some (body p)).
Proof.
  rewrite parseReqline_classified in Hparse.
  destruct (classified reqline) as [ps|] eqn:Hc; cbn [bind] in Hparse;
    [|discriminate].
  destruct (classified_inv _ _ Hc) as [segs [_ [Hs [Hl _]]]].
  rewrite Hsplit in Hs. injection Hs as <-.
  pose proof (parseSegments_stores _ _ _ _ _ _ _ _ Hl Hin Hseg) as Hget.
  pose proof (parseSegment_keyword _ _ _ _ Hseg) as [_ [_ Hne]].
  destruct (optionalSection E ps (js "HEADERS")) as [h|] eqn:Hh;
    cbn [bind] in Hparse; [|discriminate].
  destruct (optionalSection E ps (js "QUERY")) as [q|] eqn:Hq;
    cbn [bind] in Hparse; [|discriminate].
  destruct (optionalSection E ps (js "BODY")) as [b|] eqn:Hb;
    cbn [bind] in Hparse; [|discriminate].
  injection Hparse as <-. cbn [method url headers query body].
  repeat split; intros ->; try assumption;
    eapply optionalSection_decodes; eassumption.
Qed.

(** Round trip for the least request: for a method GET or POST and a url
    that begins with http:// or https://, is trimmed and holds no pipe,
    the line "HTTP method | URL url" parses to that method and that url with
    empty headers, query and body.  Nothing else is asked of the url. *)
Theorem minimal_request_round_trip (m u : jsstring)
    (Hm : m = js "GET" \/ m = js "POST")
    (Hscheme : startsWith u (js "http://") = true
               \/ startsWith u (js "https://") = true)
    (Htrim : trim u = u)
    (Hpipe : ~ In PIPE u) :
  parseReqline E (js "HTTP " ++ m ++ js " | URL " ++ u)
  = Ok {| method := Some m; url := Some u;
          headers := JObject []; query := JObject []; body := JObject [] |}.
Proof.
  assert (Hu : exists rest, u = js "http" ++ rest).
  { destruct Hscheme as [H|H]; apply startsWith_inv in H as [rest ->];
      eexists; reflexivity. }
  destruct Hu as [rest Hu].
  assert (Hune : u <> []) by (rewrite Hu; discriminate).
  assert (Hurl : trim (js "URL " ++ u) = js "URL " ++ u).
  { destruct (trim_ends u) as [H | [a [t [z [_ [_ [Hz Hwz]]]]]]];
      [congruence|].
    rewrite Htrim in Hz. apply (f_equal (@rev _)) in Hz.
    rewrite rev_involutive in Hz. cbn [rev] in Hz.
    rewrite rev_involutive in Hz.
    apply (trim_fixed _ 85%N (js "RL " ++ u) z (js "URL " ++ removelast u));
      [reflexivity | rewrite Hz at 1; now rewrite app_assoc | reflexivity
      | assumption]. }
  assert (Hsplit : splitByPipe (js "HTTP " ++ m ++ js " | URL " ++ u)
                   = Ok [js "HTTP " ++ m; js "URL " ++ u]).
  { change (js "HTTP " ++ m ++ js " | URL " ++ u)
      with (js "HTTP " ++ m ++ js " | " ++ js "URL " ++ u).
    rewrite app_assoc.
    change ((js "HTTP " ++ m) ++ js " | " ++ js "URL " ++ u)
      with (joinSegments [js "HTTP " ++ m; js "URL " ++ u]).
    apply splitByPipe_joined; [simpl; lia|].
    constructor; [|constructor; [|constructor]].
    - destruct Hm as [-> | ->]; repeat split; try by_evaluation;
        try discriminate; vm_compute; intuition discriminate.
    - split; [assumption|]. split; [discriminate|].
      intros Hin. apply in_app_or in Hin as [Hin|Hin]; [|auto].
      vm_compute in Hin. intuition discriminate. }
  assert (Hseg : parseSegment (js "URL " ++ u) 1 = Ok (js "URL", u)).
  { unfold parseSegment. rewrite Hurl.
    change (js "URL " ++ u) with (85%N :: 82%N :: 76%N :: SPACE :: u).
    cbn [firstSpace N.eqb Pos.eqb SPACE option_map substring_to substring_from
         firstn skipn Nat.add].
    change (includes_str ALL_KEYWORDS [85%N; 82%N; 76%N]) with true.
    cbn [negb bind].
    assert (Hsp : startsWith u [SPACE] = false) by (rewrite Hu; reflexivity).
    rewrite Hsp. cbn [bind].
    change (str_eqb [85%N; 82%N; 76%N] (js "HTTP")) with false.
    change (str_eqb [85%N; 82%N; 76%N] (js "URL")) with true.
    cbn [bind]. rewrite Htrim.
    destruct u as [|c u']; [contradiction|].
    destruct Hscheme as [-> | ->]; [reflexivity|].
    now rewrite andb_false_r. }
  unfold parseReqline.
  destruct (trim (js "HTTP " ++ m ++ js " | URL " ++ u)) eqn:Ht.
  { apply splitByPipe_Ok in Hsplit as [_ [_ Hne]]. contradiction. }
  rewrite Hsplit. cbn [bind parseSegments].
  assert (Hhttp : parseSegment (js "HTTP " ++ m) 0 = Ok (js "HTTP", m))
    by (destruct Hm as [-> | ->]; by_evaluation).
  rewrite Hhttp, Hseg. cbn [bind obj_get truthy_string obj_set].
  change (str_eqb (js "HTTP") (js "URL")) with false.
  cbn [truthy_string obj_set bind].
  change (str_eqb (js "HTTP") (js "URL")) with false. cbn iota.
  assert (Hord : validateKeywordOrder [js "HTTP " ++ m; js "URL " ++ u] = Ok tt).
  { unfold validateKeywordOrder, firstWord.
    assert (H0 : nth 0 (split_space (js "HTTP " ++ m)) [] = js "HTTP")
      by (rewrite (firstWord_firstSpace _ 4); reflexivity).
    assert (H1 : nth 0 (split_space (js "URL " ++ u)) [] = js "URL")
      by (rewrite (firstWord_firstSpace _ 3); reflexivity).
    rewrite H0, H1. reflexivity. }
  rewrite Hord. cbn [bind].
  destruct m as [|m0 m']; [destruct Hm; discriminate|].
  destruct u as [|u0 u']; [contradiction|].
  reflexivity.
Qed.

End Holds.

(** * Instances of the further properties *)

Lemma pipe_spacing_error_exactly_witness :
  parseReqline terseEngine (js "HTTP GET| URL https://example.com")
  = Throw PipeSpacing.
Proof.
  apply (proj2 (pipe_spacing_error_exactly terseEngine _)).
  exists (js "HTTP GET"), (js " URL https://example.com").
  split; [reflexivity|]. left. vm_compute. discriminate.
Defined.

Lemma empty_statement_exactly_witness :
  parseReqlineOf terseEngine (JNumber 123%Q) = Throw EmptyReqline
  /\ parseReqlineOf terseEngine JNull = Throw EmptyReqline
  /\ parseReqlineOf terseEngine (JString (js "   ")) = Throw EmptyReqline.
Proof.
  split; [|split].
  - apply (proj2 (empty_statement_exactly terseEngine _)).
    intros s Hs. discriminate Hs.
  - apply (proj2 (empty_statement_exactly terseEngine _)).
    intros s Hs. discriminate Hs.
  - apply (proj2 (empty_statement_exactly terseEngine _)).
    intros s Hs c Hc. injection Hs as <-. vm_compute in Hc.
    repeat (destruct Hc as [<-|Hc]; [reflexivity|]). destruct Hc.
Defined.

Lemma splitByPipe_segments_witness :
  (2 <= List.length [js "HTTP GET"; js "URL https://example.com"])%nat
  /\ forall segment,
       In segment [js "HTTP GET"; js "URL https://example.com"] ->
       trim segment = segment /\ ~ In PIPE segment.
Proof.
  apply (splitByPipe_segments (js "HTTP GET | URL https://example.com")).
  by_evaluation.
Defined.

Lemma splitByPipe_joinSegments_witness :
  splitByPipe (joinSegments [js "HTTP GET"; js "URL https://example.com"])
  = Ok [js "HTTP GET"; js "URL https://example.com"].
Proof.
  apply splitByPipe_joinSegments.
  - simpl. lia.
  - repeat constructor; try by_evaluation; try discriminate;
      vm_compute; intuition discriminate.
Defined.

Lemma parseSegment_result_witness :
  In (js "URL") ALL_KEYWORDS
  /\ js "https://example.com" <> []
  /\ trim (js "https://example.com") = js "https://example.com"
  /\ (exists raw,
         trim (js " URL https://example.com ") = js "URL" ++ SPACE :: raw
         /\ js "https://example.com" = trim raw)
  /\ (js "URL" = js "HTTP" ->
      js "https://example.com" = js "GET"
      \/ js "https://example.com" = js "POST")
  /\ (js "URL" = js "URL" ->
      startsWith (js "https://example.com") (js "http://") = true
      \/ startsWith (js "https://example.com") (js "https://") = true).
Proof.
  apply (parseSegment_result (js " URL https://example.com ") 1).
  by_evaluation.
Defined.

Lemma first_duplicate_named_witness :
  parseReqline terseEngine (js "HTTP GET | URL https://example.com | HTTP POST")
  = Throw (DuplicateKeyword (js "HTTP")).
Proof.
  apply (first_duplicate_named terseEngine _
           [js "HTTP GET"; js "URL https://example.com"] (js "HTTP POST") []).
  - by_evaluation.
  - repeat constructor; eexists; eexists; by_evaluation.
  - eexists; eexists; by_evaluation.
  - vm_compute. repeat constructor; simpl; intuition discriminate.
  - vm_compute. auto.
Defined.

Lemma required_check_never_fires_witness :
  parseReqline terseEngine (js "URL https://example.com | QUERY {}")
  <> Throw (MissingRequired (js "HTTP")).
Proof.
  exact (proj2 (required_check_never_fires terseEngine
                  (js "URL https://example.com | QUERY {}"))).
Defined.

Lemma parseJsonSection_returns_object_witness :
  parseJsonSection terseEngine (js "{}") (js "BODY") = Ok (JObject []).
Proof.
  apply (proj2 (parseJsonSection_returns_object terseEngine _ _ _)).
  exists []. split; by_evaluation.
Defined.

Lemma parsed_request_shape_witness :
  let p := {| method := Some (js "GET"); url := Some (js "https://example.com");
              headers := JObject []; query := JObject []; body := JObject [] |} in
  parseReqline terseEngine (js "HTTP GET | URL https://example.com") = Ok p
  /\ (method p = Some (js "GET") \/ method p = Some (js "POST"))
  /\ (exists u, url p = Some u /\ trim u = u
                /\ (startsWith u (js "http://") = true
                    \/ startsWith u (js "https://") = true))
  /\ exists request,
       toRequest p = Some request
       /\ method p = Some (req_method request)
       /\ url p = Some (req_url request)
       /\ headers p = JObject (req_headers request)
       /\ query p = JObject (req_query request)
       /\ body p = JObject (req_body request).
Proof.
  intros p.
  assert (H : parseReqline terseEngine (js "HTTP GET | URL https://example.com")
              = Ok p) by by_evaluation.
  split; [exact H|]. exact (parsed_request_shape terseEngine _ p H).
Defined.

Lemma optional_sections_any_order_witness :
  parseReqline terseEngine
    (js "HTTP GET | URL https://example.com | HEADERS {" ++ quoted "Accept"
     ++ js ": " ++ quoted "json" ++ js "} | BODY {" ++ quoted "test"
     ++ js ": 1}")
  = Ok {| method := Some (js "GET"); url := Some (js "https://example.com");
          headers := JObject [(js "Accept", JString (js "json"))];
          query := JObject [];
          body := JObject [(js "test", JNumber 1%Q)] |}.
Proof.
  apply (optional_sections_any_order terseEngine
           (js "HTTP GET | URL https://example.com | BODY {" ++ quoted "test"
            ++ js ": 1} | HEADERS {" ++ quoted "Accept" ++ js ": "
            ++ quoted "json" ++ js "}")
           _
           (js "HTTP GET") (js "URL https://example.com")
           [js "BODY {" ++ quoted "test" ++ js ": 1}";
            js "HEADERS {" ++ quoted "Accept" ++ js ": " ++ quoted "json"
            ++ js "}"]
           [js "HEADERS {" ++ quoted "Accept" ++ js ": " ++ quoted "json"
            ++ js "}";
            js "BODY {" ++ quoted "test" ++ js ": 1}"]).
  - by_evaluation.
  - by_evaluation.
  - apply perm_swap.
  - by_evaluation.
Defined.

Lemma post_goes_out_with_content_type_witness :
  let r := {| req_method := js "POST"; req_url := js "https://httpbin.org/post";
              req_headers := [(js "Authorization", JString (js "Bearer token"))];
              req_query := [];
              req_body := [(js "name", JString (js "test"))] |} in
  let sent := cfg_headers (axiosConfigOf r (js "https://httpbin.org/post")) in
  (truthy_prop (obj_get (js "Content-Type") sent) = true
   \/ truthy_prop (obj_get (js "content-type") sent) = true)
  /\ (forall name, name <> js "Content-Type" ->
                   obj_get name sent = obj_get name (req_headers r))
  /\ (truthy_prop (obj_get (js "Content-Type") (req_headers r)) = true
      \/ truthy_prop (obj_get (js "content-type") (req_headers r)) = true ->
      sent = req_headers r).
Proof.
  intros r.
  apply (post_goes_out_with_content_type r (js "https://httpbin.org/post"));
    [reflexivity | discriminate].
Defined.

Lemma executeRequest_rejections_witness :
  executeRequest (fun u _ => Some u) (fun _ => ErrorWithRequest) 0 5
    {| req_method := js "GET"; req_url := js "https://example.com";
       req_headers := []; req_query := []; req_body := [] |}
  = Rejected (js "Network error: Unable to reach https://example.com").
Proof.
  apply (proj2 (executeRequest_rejections _ _ _ _ _ _)).
  exists (js "https://example.com"). split; [reflexivity|].
  left. split; reflexivity.
Defined.

Lemma executeRequest_fulfilled_witness :
  exists rq rs fullUrl,
    executeRequest (fun u _ => Some u)
      (fun _ => ErrorWithResponse 404 None (js "Not Found")) 10 25
      {| req_method := js "GET"; req_url := js "https://example.com";
         req_headers := []; req_query := []; req_body := [] |}
    = Fulfilled rq rs
    /\ full_url rq = fullUrl
    /\ duration rs = 15%Z
    /\ response_data rs
       = Some (JObject [(js "error", JString (js "Not Found"))]).
Proof.
  eexists. eexists. eexists.
  assert (H : executeRequest (fun u _ => Some u)
                (fun _ => ErrorWithResponse 404 None (js "Not Found")) 10 25
                {| req_method := js "GET"; req_url := js "https://example.com";
                   req_headers := []; req_query := []; req_body := [] |}
              = Fulfilled
                  {| echo_query := []; echo_body := []; echo_headers := [];
                     full_url := js "https://example.com" |}
                  {| http_status := 404; duration := 15;
                     request_start_timestamp := 10;
                     request_stop_timestamp := 25;
                     response_data :=
                       Some (JObject [(js "error", JString (js "Not Found"))]) |})
    by reflexivity.
  split; [exact H|].
  destruct (executeRequest_fulfilled _ _ _ _ _ _ _ H) as [u [_ [_ [Hd _]]]].
  split; [reflexivity|]. split; [exact Hd | reflexivity].
Defined.

Lemma parsed_request_config_witness :
  let request :=
    {| req_method := js "GET"; req_url := js "https://example.com";
       req_headers := []; req_query := [];
       req_body := [(js "test", JNumber 1%Q)] |} in
  let cfg := axiosConfigOf request (js "https://example.com") in
  (cfg_method cfg = js "get" \/ cfg_method cfg = js "post")
  /\ cfg_url cfg = js "https://example.com"
  /\ cfg_timeout cfg = 30000%N
  /\ (req_method request = js "GET" ->
      cfg_data cfg = None /\ cfg_headers cfg = req_headers request)
  /\ (req_query request = [] ->
      forall urlWithParams,
        buildFullUrl urlWithParams (req_url request) (req_query request)
        = Some (req_url request)).
Proof.
  intros request.
  apply (parsed_request_config terseEngine
           (js "HTTP GET | URL https://example.com | BODY {" ++ quoted "test"
            ++ js ": 1}")
           {| method := Some (js "GET"); url := Some (js "https://example.com");
              headers := JObject []; query := JObject [];
              body := JObject [(js "test", JNumber 1%Q)] |}
           request (js "https://example.com")); by_evaluation.
Defined.

Lemma route_without_reqline_witness :
  handlePost terseEngine (fun u _ => Some u) (js "Invalid URL")
    (fun _ => Resolved 200 None) 0 1
    [(js "reqline", JString [])]
  = Some {| reply_status := 400;
            reply_body := ErrorReply (js "Missing reqline parameter") |}.
Proof.
  apply (proj1 (route_without_reqline terseEngine (fun u _ => Some u)
                  (js "Invalid URL") (fun _ => Resolved 200 None) 0 1
                  [(js "reqline", JString [])])).
  reflexivity.
Defined.

Lemma route_parse_error_witness :
  handlePost terseEngine (fun u _ => Some u) (js "Invalid URL")
    (fun _ => Resolved 200 None) 0 1
    [(js "reqline", JString (js "HTTP PUT | URL https://example.com"))]
  = Some {| reply_status := 400;
            reply_body :=
              ErrorReply
                (js "Invalid HTTP method. Only GET and POST are supported") |}.
Proof.
  destruct (route_parse_error terseEngine (fun u _ => Some u)
              (js "Invalid URL") (fun _ => Resolved 200 None) 0 1
              [(js "reqline", JString (js "HTTP PUT | URL https://example.com"))]
              (js "HTTP PUT | URL https://example.com") InvalidMethod
              eq_refl ltac:(by_evaluation)) as [[H _]|[_ H]].
  - discriminate H.
  - exact H.
Defined.

Lemma route_upstream_error_is_200_witness :
  exists rq rs,
    handlePost terseEngine (fun u _ => Some u) (js "Invalid URL")
      (fun _ => ErrorWithResponse 500 None (js "Internal Server Error")) 0 1
      [(js "reqline", JString (js "HTTP GET | URL https://example.com"))]
    = Some {| reply_status := 200; reply_body := ResultReply rq rs |}
    /\ http_status rs = 500%N
    /\ Some (js "https://example.com") = Some (full_url rq).
Proof.
  apply (route_upstream_error_is_200 terseEngine (fun u _ => Some u)
           (js "Invalid URL")
           (fun _ => ErrorWithResponse 500 None (js "Internal Server Error"))
           0 1 (js "HTTP GET | URL https://example.com")
           {| method := Some (js "GET"); url := Some (js "https://example.com");
              headers := JObject []; query := JObject []; body := JObject [] |}
           500%N None (js "Internal Server Error")).
  - by_evaluation.
  - reflexivity.
  - reflexivity.
Defined.

Lemma result_holds_segment_values_witness :
  JSON_parse (js "{" ++ quoted "k" ++ js ":1}")
  = Some (JObject [(js "k", JNumber 1%Q)]).
Proof.
  apply (proj1 (proj2 (proj2 (proj2
    (result_holds_segment_values terseEngine
       (js "HTTP GET | URL https://a.com/x | QUERY {" ++ quoted "k" ++ js ":1}")
       {| method := Some (js "GET"); url := Some (js "https://a.com/x");
          headers := JObject []; query := JObject [(js "k", JNumber 1%Q)];
          body := JObject [] |}
       [js "HTTP GET"; js "URL https://a.com/x";
        js "QUERY {" ++ quoted "k" ++ js ":1}"]
       (js "QUERY {" ++ quoted "k" ++ js ":1}")
       (js "QUERY") (js "{" ++ quoted "k" ++ js ":1}")
       ltac:(by_evaluation) ltac:(by_evaluation)
       ltac:(right; right; left; reflexivity) ltac:(by_evaluation)))))).
  reflexivity.
Defined.

Lemma minimal_request_round_trip_witness :
  parseReqline terseEngine (js "HTTP POST | URL http://host/a b?x=1")
  = Ok {| method := Some (js "POST"); url := Some (js "http://host/a b?x=1");
          headers := JObject []; query := JObject []; body := JObject [] |}.
Proof.
  apply (minimal_request_round_trip terseEngine (js "POST")
           (js "http://host/a b?x=1")).
  - now right.
  - now left.
  - by_evaluation.
  - vm_compute. intuition discriminate.
Defined.

Lemma body_only_with_post_witness :
  cfg_data
    (axiosConfigOf
       {| req_method := js "GET"; req_url := js "https://example.com";
          req_headers := []; req_query := [];
          req_body := [(js "test", JNumber 1%Q)] |}
       (js "https://example.com")) = None.
Proof.
  apply (proj2 (proj1 (body_only_with_post _ _))). left. discriminate.
Defined.
